(** * Action priority list checker (parser/shared/metrics/apl.ts)

    A shallow embedding of the APL rule-evaluation engine: conditions with
    per-key state, the spell availability tracker, first-match rule
    selection and the fold over the event stream.

    JavaScript objects used as dictionaries ([ConditionState],
    [AbilityState]) are finite maps of their own properties.  A read of
    a property that was never written falls through to
    [Object.prototype]: it gives the inherited member when the name is
    one of [objectPrototype], and [JUndefined] otherwise. *)

From Stdlib Require Import Ascii.
From stdpp Require Import gmap strings list fin_maps pretty.

Local Open Scope Z_scope.

(** ** Values of type [any] *)

(** The state of a condition is typed [any] in the engine.  The values a
    condition state can take here are the JavaScript primitives, and the
    members every object inherits from [Object.prototype]: its methods,
    and for [__proto__] the prototype object itself. *)
Inductive jsval :=
  | JUndefined
  | JBool (b : bool)
  | JNum (n : Z)
  | JStr (s : string)
  | JInherited (member : string).

#[global] Instance jsval_eq_dec : EqDecision jsval.
Proof. solve_decision. Defined.

(** Truthiness, as applied by [&&], [||] and [if]. *)
Definition truthy (v : jsval) : bool :=
  match v with
  | JUndefined => false
  | JBool b => b
  | JNum n => negb (n =? 0)
  | JStr s => negb (String.eqb s "")
  | JInherited _ => true
  end.

(** ** Events *)

(** Modelled from the spec: the declarations of [parser/core/Events],
    [common/SPELLS/Spell] and [parser/core/metric] are not part of the
    sources.  Events are a tagged union on [type]; only the fields the
    engine reads (and the actor of the event) are kept. *)
Inductive EventType :=
  | Cast
  | ApplyBuff
  | RemoveBuff
  | UpdateSpellUsable
  | Damage.

#[global] Instance EventType_eq_dec : EqDecision EventType.
Proof. solve_decision. Defined.

Record Ability := { guid : Z; abilityName : string }.

Record Spell := { id : Z; name : string }.

(** Cast, apply-buff, remove-buff and damage events share one shape. *)
Record AbilityEvent := {
  timestamp : Z;
  sourceID : Z;
  targetID : Z;
  ability : Ability
}.

Abbreviation CastEvent := AbilityEvent.

Record UpdateSpellUsableEvent := {
  usableTimestamp : Z;
  usableAbility : Ability;
  isAvailable : bool
}.

Inductive AnyEvent :=
  | EvCast (e : CastEvent)
  | EvApplyBuff (e : AbilityEvent)
  | EvRemoveBuff (e : AbilityEvent)
  | EvUpdateSpellUsable (e : UpdateSpellUsableEvent)
  | EvDamage (e : AbilityEvent).

Definition type (event : AnyEvent) : EventType :=
  match event with
  | EvCast _ => Cast
  | EvApplyBuff _ => ApplyBuff
  | EvRemoveBuff _ => RemoveBuff
  | EvUpdateSpellUsable _ => UpdateSpellUsable
  | EvDamage _ => Damage
  end.

Record Info := { playerId : Z }.

(** ** Conditions, rules and the APL *)

Record Condition := {
  key : string;
  init : jsval;
  update : jsval → AnyEvent → jsval;
  validate : jsval → AnyEvent → jsval
}.

Record ConditionalRule := {
  ruleSpell : Spell;
  condition : Condition
}.

(** [Rule = Spell | ConditionalRule]; the source tells them apart with
    ['spell' in rule] and ['condition' in rule]. *)
Inductive Rule :=
  | Unconditional (s : Spell)
  | Conditional (r : ConditionalRule).

Record Apl := {
  conditions : option (list Condition);
  rules : list Rule
}.

Record Violation := {
  actualCast : Ability;
  expectedCast : Spell;
  rule : Rule
}.

Abbreviation ConditionState := (gmap string jsval).
Abbreviation AbilityState := (gmap Z UpdateSpellUsableEvent).

Record CheckState := {
  successes : list Rule;
  violations : list Violation;
  conditionState : ConditionState;
  abilityState : AbilityState
}.

(** [CheckResult = Pick<CheckState, 'successes' | 'violations'>]. *)
Record CheckResult := {
  resSuccesses : list Rule;
  resViolations : list Violation
}.

Definition checkResult (st : CheckState) : CheckResult :=
  {| resSuccesses := successes st; resViolations := violations st |}.

(** The property names of [Object.prototype] (ECMAScript, with the
    legacy accessors of its Annex B).  The objects of the engine are
    built from [{}] and object spread, so they all inherit them. *)
Definition objectPrototype : list string :=
  ["constructor"; "hasOwnProperty"; "isPrototypeOf"; "propertyIsEnumerable";
   "toLocaleString"; "toString"; "valueOf"; "__proto__";
   "__defineGetter__"; "__defineSetter__";
   "__lookupGetter__"; "__lookupSetter__"].

(** Property read [state[k]] on a dictionary object: an own property
    first (a computed key or a spread defines an own property, also for
    [__proto__]), then the prototype. *)
Definition prop (state : ConditionState) (k : string) : jsval :=
  match state !! k with
  | Some v => v
  | None =>
      if bool_decide (k ∈ objectPrototype) then JInherited k else JUndefined
  end.

(** ** buffPresent *)

Definition buffPresent (spell : Spell) (target : Z) : Condition :=
  {| key := "buffPresent-" +:+ pretty (id spell) +:+ "-" +:+ pretty target;
     init := JBool false;
     update := λ state event,
       match event with
       | EvApplyBuff e =>
           if guid (ability e) =? id spell then JBool true else state
       | EvRemoveBuff e =>
           if guid (ability e) =? id spell then JBool false else state
       | _ => state
       end;
     validate := λ state _event, state |}.

(** ** Condition state *)

Definition initState (apl : Apl) : ConditionState :=
  match conditions apl with
  | Some cnds =>
      fold_left (λ (state : ConditionState) cnd, <[key cnd := init cnd]> state)
                cnds ∅
  | None => ∅
  end.

Definition updateState (apl : Apl) (oldState : ConditionState)
    (event : AnyEvent) : ConditionState :=
  match conditions apl with
  | Some cnds =>
      fold_left (λ (state : ConditionState) cnd,
                   <[key cnd := update cnd (prop oldState (key cnd)) event]> state)
                cnds ∅
  | None => ∅
  end.

(** ** Rule selection *)

Definition spell (rule : Rule) : Spell :=
  match rule with
  | Conditional r => ruleSpell r
  | Unconditional s => s
  end.

Definition ruleApplies (rule : Rule) (result : CheckState)
    (event : CastEvent) : bool :=
  match abilityState result !! id (spell rule) with
  | None => true
  | Some usable => isAvailable usable
  end
  &&
  match rule with
  | Unconditional _ => true
  | Conditional r =>
      truthy (validate (condition r)
                (prop (conditionState result) (key (condition r)))
                (EvCast event))
  end.

(** The [for ... of] loop of [applicableRule] over the remaining rules. *)
Fixpoint firstApplicable (rs : list Rule) (result : CheckState)
    (event : CastEvent) : option Rule :=
  match rs with
  | [] => None
  | rule :: rest =>
      if ruleApplies rule result event then Some rule
      else firstApplicable rest result event
  end.

Definition applicableRule (apl : Apl) (result : CheckState)
    (event : CastEvent) : option Rule :=
  firstApplicable (rules apl) result event.

(** ** Availability tracker *)

Definition updateAbilities (state : AbilityState) (event : AnyEvent)
    : AbilityState :=
  match event with
  | EvUpdateSpellUsable e => <[guid (usableAbility e) := e]> state
  | _ => state
  end.

(** ** The fold *)

Definition applicableSpells (apl : Apl) : gset Z :=
  list_to_set (map (λ rule, id (spell rule)) (rules apl)).

Definition pushSuccess (result : CheckState) (r : Rule) : CheckState :=
  {| successes := successes result ++ [r];
     violations := violations result;
     conditionState := conditionState result;
     abilityState := abilityState result |}.

Definition pushViolation (result : CheckState) (v : Violation) : CheckState :=
  {| successes := successes result;
     violations := violations result ++ [v];
     conditionState := conditionState result;
     abilityState := abilityState result |}.

(** The first statement of the reducer: judge a cast of a governed spell. *)
Definition judge (apl : Apl) (result : CheckState) (event : AnyEvent)
    : CheckState :=
  match event with
  | EvCast c =>
      if bool_decide (guid (ability c) ∈ applicableSpells apl) then
        match applicableRule apl result c with
        | Some rule =>
            if id (spell rule) =? guid (ability c) then
              pushSuccess result rule
            else
              pushViolation result
                {| rule := rule;
                   expectedCast := spell rule;
                   actualCast := ability c |}
        | None => result
        end
      else result
  | _ => result
  end.

(** The callback passed to [events.reduce]. *)
Definition reducer (apl : Apl) (result : CheckState) (event : AnyEvent)
    : CheckState :=
  let result := judge apl result event in
  {| successes := successes result;
     violations := violations result;
     abilityState := updateAbilities (abilityState result) event;
     conditionState := updateState apl (conditionState result) event |}.

Definition initial (apl : Apl) : CheckState :=
  {| successes := [];
     violations := [];
     abilityState := ∅;
     conditionState := initState apl |}.

(** Modelled from the spec: [metric] is not part of the sources; it exposes
    the wrapped function unchanged, [aplCheck(apl)(events, info)]. *)
Definition metric {A R : Type} (fn : list AnyEvent → A → R)
    : list AnyEvent → A → R := fn.

Definition aplCheck (apl : Apl) : list AnyEvent → Info → CheckState :=
  metric (λ events info,
    let playerId := playerId info in
    fold_left (reducer apl) events (initial apl)).

(** ** The accumulator with its arrays and objects held by reference

    The reducer does not build new lists: [push] mutates the two arrays in
    place, [updateAbilities] writes into the ability object in place, and
    [{...result, ...}] copies the three references into a new record.
    Only the condition state is rebuilt as a new object on every event.
    The model below keeps the arrays and the ability object in a store
    and fails ([None]) on a dangling or ill-typed reference. *)

Abbreviation loc := positive.

Inductive cell :=
  | RuleArray (rs : list Rule)
  | ViolationArray (vs : list Violation)
  | AbilityObject (m : AbilityState).

Abbreviation store := (gmap loc cell).

Record CheckStateRef := {
  successesRef : loc;
  violationsRef : loc;
  conditionStateObj : ConditionState;
  abilityStateRef : loc
}.

Definition alloc (h : store) (c : cell) : loc * store :=
  let l := fresh (dom h) in (l, <[l := c]> h).

Definition readRules (h : store) (l : loc) : option (list Rule) :=
  match h !! l with Some (RuleArray rs) => Some rs | _ => None end.

Definition readViolations (h : store) (l : loc) : option (list Violation) :=
  match h !! l with Some (ViolationArray vs) => Some vs | _ => None end.

Definition readAbilities (h : store) (l : loc) : option AbilityState :=
  match h !! l with Some (AbilityObject m) => Some m | _ => None end.

(** What the fields of the accumulator denote in the current store. *)
Definition snapshot (h : store) (r : CheckStateRef) : option CheckState :=
  rs ← readRules h (successesRef r);
  vs ← readViolations h (violationsRef r);
  m ← readAbilities h (abilityStateRef r);
  Some {| successes := rs;
          violations := vs;
          conditionState := conditionStateObj r;
          abilityState := m |}.

Definition pushRuleAt (h : store) (l : loc) (r : Rule) : option store :=
  rs ← readRules h l; Some (<[l := RuleArray (rs ++ [r])]> h).

Definition pushViolationAt (h : store) (l : loc) (v : Violation)
    : option store :=
  vs ← readViolations h l; Some (<[l := ViolationArray (vs ++ [v])]> h).

Definition updateAbilitiesAt (h : store) (l : loc) (event : AnyEvent)
    : option store :=
  match event with
  | EvUpdateSpellUsable e =>
      m ← readAbilities h l;
      Some (<[l := AbilityObject (<[guid (usableAbility e) := e]> m)]> h)
  | _ => Some h
  end.

Definition judgeRef (apl : Apl) (result : CheckStateRef) (event : AnyEvent)
    (h : store) : option store :=
  match event with
  | EvCast c =>
      if bool_decide (guid (ability c) ∈ applicableSpells apl) then
        view ← snapshot h result;
        match applicableRule apl view c with
        | Some rule =>
            if id (spell rule) =? guid (ability c) then
              pushRuleAt h (successesRef result) rule
            else
              pushViolationAt h (violationsRef result)
                {| rule := rule;
                   expectedCast := spell rule;
                   actualCast := ability c |}
        | None => Some h
        end
      else Some h
  | _ => Some h
  end.

Definition reducerRef (apl : Apl) (result : CheckStateRef) (event : AnyEvent)
    (h : store) : option (CheckStateRef * store) :=
  h ← judgeRef apl result event h;
  h ← updateAbilitiesAt h (abilityStateRef result) event;
  Some ({| successesRef := successesRef result;
           violationsRef := violationsRef result;
           abilityStateRef := abilityStateRef result;
           conditionStateObj :=
             updateState apl (conditionStateObj result) event |}, h).

Fixpoint reduceRef (apl : Apl) (events : list AnyEvent)
    (result : CheckStateRef) (h : store) : option (CheckStateRef * store) :=
  match events with
  | [] => Some (result, h)
  | event :: rest =>
      '(result, h) ← reducerRef apl result event h;
      reduceRef apl rest result h
  end.

(** The initial value of the fold is an object literal evaluated inside
    the callback: every call allocates its own arrays and ability object. *)
Definition initialRef (apl : Apl) (h : store) : CheckStateRef * store :=
  let '(ls, h) := alloc h (RuleArray []) in
  let '(lv, h) := alloc h (ViolationArray []) in
  let '(la, h) := alloc h (AbilityObject ∅) in
  ({| successesRef := ls;
      violationsRef := lv;
      abilityStateRef := la;
      conditionStateObj := initState apl |}, h).

Definition aplCheckRef (apl : Apl)
    : list AnyEvent → Info → store → option (CheckStateRef * store) :=
  metric (λ events info h,
    let playerId := playerId info in
    let '(result, h) := initialRef apl h in
    reduceRef apl events result h).

(** One call as its caller observes it: the [CheckResult] read back from
    the returned accumulator. *)
Definition evaluate (apl : Apl) (events : list AnyEvent) (info : Info)
    (h : store) : option CheckResult :=
  '(result, h) ← aplCheckRef apl events info h;
  checkResult <$> snapshot h result.

(** A step leaves every cell other than the three of the accumulator as
    it was. *)
Definition frame (r : CheckStateRef) (h h' : store) : Prop :=
  ∀ l, l ≠ successesRef r → l ≠ violationsRef r → l ≠ abilityStateRef r →
       h' !! l = h !! l.

(** ** Fixtures *)

Module Fixtures.

Definition spellA : Spell := {| id := 101; name := "A" |}.
Definition spellB : Spell := {| id := 202; name := "B" |}.

Definition abilityOf (s : Spell) : Ability :=
  {| guid := id s; abilityName := name s |}.

Definition castBy (actor : Z) (s : Spell) : CastEvent :=
  {| timestamp := 0; sourceID := actor; targetID := 0;
     ability := abilityOf s |}.

Definition buffOn (target : Z) (s : Spell) : AbilityEvent :=
  {| timestamp := 0; sourceID := 1; targetID := target;
     ability := abilityOf s |}.

Definition usable (s : Spell) (available : bool) : UpdateSpellUsableEvent :=
  {| usableTimestamp := 0; usableAbility := abilityOf s;
     isAvailable := available |}.

Definition player : Info := {| playerId := 1 |}.

(** [A] before [B], both unconditional. *)
Definition aplAB : Apl :=
  {| conditions := None;
     rules := [Unconditional spellA; Unconditional spellB] |}.

(** A single unconditional rule. *)
Definition aplA : Apl :=
  {| conditions := None; rules := [Unconditional spellA] |}.

(** [A] while the buff [B] is up; the condition is registered. *)
Definition guardedA : ConditionalRule :=
  {| ruleSpell := spellA; condition := buffPresent spellB 1 |}.

Definition aplGuarded : Apl :=
  {| conditions := Some [buffPresent spellB 1];
     rules := [Conditional guardedA] |}.

(** The same rule, with its condition left out of [conditions]. *)
Definition aplUnregistered : Apl :=
  {| conditions := Some []; rules := [Conditional guardedA] |}.

(** A condition that becomes true on the first cast of [s]: its [update]
    is triggered by the very event its rule is judged on. *)
Definition castSeen (s : Spell) : Condition :=
  {| key := "castSeen";
     init := JBool false;
     update := λ state event,
       match event with
       | EvCast c => if guid (ability c) =? id s then JBool true else state
       | _ => state
       end;
     validate := λ state _event, state |}.

Definition aplSelf : Apl :=
  {| conditions := Some [castSeen spellA];
     rules := [Conditional {| ruleSpell := spellA;
                              condition := castSeen spellA |}] |}.

End Fixtures.

(** ** Readings of an APL and of a stream *)

(** The keys written by [initState] and [updateState]. *)
Definition conditionKeys (apl : Apl) : gset string :=
  list_to_set (key <$> default [] (conditions apl)).

(** The test that opens the reducer: a cast of a spell some rule governs. *)
Definition governedCast (apl : Apl) (event : AnyEvent) : option CastEvent :=
  match event with
  | EvCast c =>
      if bool_decide (guid (ability c) ∈ applicableSpells apl) then Some c
      else None
  | _ => None
  end.

Definition governedCasts (apl : Apl) (events : list AnyEvent)
    : list CastEvent :=
  omap (governedCast apl) events.

(** No ["-"] among the characters of a string. *)
Fixpoint noDash (s : string) : bool :=
  match s with
  | EmptyString => true
  | String a rest => negb (Ascii.eqb a "-"%char) && noDash rest
  end.

Module InheritedKey.

(** A condition whose key is also the name of a member of
    [Object.prototype]; it validates on its state, like [buffPresent]. *)
Definition flag : Condition :=
  {| key := "constructor";
     init := JBool false;
     update := λ state _event, state;
     validate := λ state _event, state |}.

Definition flaggedA : ConditionalRule :=
  {| ruleSpell := Fixtures.spellA; condition := flag |}.

(** The rule is there, its condition is not registered. *)
Definition aplFlagged : Apl :=
  {| conditions := Some []; rules := [Conditional flaggedA] |}.

End InheritedKey.

Module Shadowing.

(** Two registered conditions under one key. *)
Definition aplShadowed : Apl :=
  {| conditions := Some [Fixtures.castSeen Fixtures.spellA;
                         Fixtures.castSeen Fixtures.spellB];
     rules := [Conditional {| ruleSpell := Fixtures.spellA;
                              condition :=
                                Fixtures.castSeen Fixtures.spellA |}] |}.

(** [A] while the buff [B] is up, else [B]. *)
Definition aplBuffThenB : Apl :=
  {| conditions := Some [buffPresent Fixtures.spellB 1];
     rules := [Conditional Fixtures.guardedA;
               Unconditional Fixtures.spellB] |}.

End Shadowing.

(** * Properties *)

(** ** The fold and its trackers *)

Section Fold.

Variable apl : Apl.

Lemma aplCheck_unfold events info :
  aplCheck apl events info = fold_left (reducer apl) events (initial apl).
Proof. reflexivity. Qed.

Lemma aplCheck_snoc pre event info :
  aplCheck apl (pre ++ [event]) info
  = reducer apl (aplCheck apl pre info) event.
Proof. rewrite !aplCheck_unfold, fold_left_app. reflexivity. Qed.

Lemma aplCheck_app pre post info :
  aplCheck apl (pre ++ post) info
  = fold_left (reducer apl) post (aplCheck apl pre info).
Proof. rewrite !aplCheck_unfold. apply fold_left_app. Qed.

Lemma judge_abilityState result event :
  abilityState (judge apl result event) = abilityState result.
Proof.
  unfold judge. destruct event; try reflexivity.
  case_bool_decide; [|reflexivity].
  destruct (applicableRule apl result e); [|reflexivity].
  destruct (_ =? _); reflexivity.
Qed.

Lemma judge_conditionState result event :
  conditionState (judge apl result event) = conditionState result.
Proof.
  unfold judge. destruct event; try reflexivity.
  case_bool_decide; [|reflexivity].
  destruct (applicableRule apl result e); [|reflexivity].
  destruct (_ =? _); reflexivity.
Qed.

Lemma reducer_abilityState result event :
  abilityState (reducer apl result event)
  = updateAbilities (abilityState result) event.
Proof. unfold reducer. simpl. by rewrite judge_abilityState. Qed.

Lemma reducer_conditionState result event :
  conditionState (reducer apl result event)
  = updateState apl (conditionState result) event.
Proof. unfold reducer. simpl. by rewrite judge_conditionState. Qed.

Lemma fold_abilityState events result :
  abilityState (fold_left (reducer apl) events result)
  = fold_left updateAbilities events (abilityState result).
Proof.
  revert result. induction events as [|event events IH]; intros result.
  - reflexivity.
  - simpl. by rewrite IH, reducer_abilityState.
Qed.

Lemma fold_conditionState events result :
  conditionState (fold_left (reducer apl) events result)
  = fold_left (updateState apl) events (conditionState result).
Proof.
  revert result. induction events as [|event events IH]; intros result.
  - reflexivity.
  - simpl. by rewrite IH, reducer_conditionState.
Qed.

(** The reducer only ever appends to the two lists. *)
Lemma judge_extends result event :
  (∃ ss, successes (judge apl result event) = successes result ++ ss)
  ∧ (∃ vs, violations (judge apl result event) = violations result ++ vs).
Proof.
  unfold judge.
  assert (Hsame : (∃ ss, successes result = successes result ++ ss)
                  ∧ (∃ vs, violations result = violations result ++ vs)).
  { split; exists []; by rewrite app_nil_r. }
  destruct event; try exact Hsame.
  case_bool_decide; [|exact Hsame].
  destruct (applicableRule apl result e) as [r|]; [|exact Hsame].
  destruct (_ =? _); simpl; split; eauto; exists []; by rewrite app_nil_r.
Qed.

Lemma fold_extends events result :
  (∃ ss, successes (fold_left (reducer apl) events result)
         = successes result ++ ss)
  ∧ (∃ vs, violations (fold_left (reducer apl) events result)
           = violations result ++ vs).
Proof.
  revert result. induction events as [|event events IH]; intros result.
  - split; exists []; by rewrite app_nil_r.
  - simpl. destruct (IH (reducer apl result event)) as [[ss Hs] [vs Hv]].
    destruct (judge_extends result event) as [[ss0 Hs0] [vs0 Hv0]].
    rewrite Hs, Hv. unfold reducer; simpl. rewrite Hs0, Hv0.
    split; [exists (ss0 ++ ss) | exists (vs0 ++ vs)]; by rewrite app_assoc.
Qed.

End Fold.

(** ** buffPresent *)

(** C7. [buffPresent] has the reference behaviour: its state starts as
    [false]; an apply-buff event of the condition's spell sets it to
    [true]; a remove-buff event of that spell sets it to [false]; every
    other event leaves it as it is; [validate] returns the state and
    ignores the event. *)
Theorem buffPresent_reference (s : Spell) (target : Z) :
  let c := buffPresent s target in
  init c = JBool false
  ∧ (∀ state e, guid (ability e) = id s →
       update c state (EvApplyBuff e) = JBool true)
  ∧ (∀ state e, guid (ability e) = id s →
       update c state (EvRemoveBuff e) = JBool false)
  ∧ (∀ state event,
       (∀ e, event = EvApplyBuff e → guid (ability e) ≠ id s) →
       (∀ e, event = EvRemoveBuff e → guid (ability e) ≠ id s) →
       update c state event = state)
  ∧ (∀ state event, validate c state event = state).
Proof.
  simpl. split; [reflexivity|].
  split; [intros state e ->; by rewrite Z.eqb_refl|].
  split; [intros state e ->; by rewrite Z.eqb_refl|].
  split; [|reflexivity].
  intros state event Happly Hremove.
  destruct event as [e|e|e|e|e]; try reflexivity.
  - destruct (Z.eqb_spec (guid (ability e)) (id s)) as [Heq|]; [|reflexivity].
    by destruct (Happly e eq_refl).
  - destruct (Z.eqb_spec (guid (ability e)) (id s)) as [Heq|]; [|reflexivity].
    by destruct (Hremove e eq_refl).
Qed.

Lemma buffPresent_reference_witness :
  let c := buffPresent Fixtures.spellB 1 in
  update c (JBool false) (EvApplyBuff (Fixtures.buffOn 1 Fixtures.spellB))
    = JBool true
  ∧ update c (JBool true) (EvRemoveBuff (Fixtures.buffOn 1 Fixtures.spellB))
    = JBool false
  ∧ update c (JBool true) (EvApplyBuff (Fixtures.buffOn 1 Fixtures.spellA))
    = JBool true
  ∧ update c (JBool true) (EvCast (Fixtures.castBy 1 Fixtures.spellB))
    = JBool true.
Proof.
  destruct (buffPresent_reference Fixtures.spellB 1)
    as (_ & Happly & Hremove & Hother & _).
  split; [apply Happly; reflexivity|].
  split; [apply Hremove; reflexivity|].
  split; apply Hother; intros e [= <-]; vm_compute; discriminate.
Defined.

(** C10. The target given to [buffPresent] reaches the key only: two
    conditions on the same spell with different targets have the same
    initial state, the same [update] and the same [validate], and the
    target of a buff event plays no part in [update]. *)
Theorem buffPresent_target_only_in_key (s : Spell) (t1 t2 : Z)
    (state : jsval) (event : AnyEvent) :
  init (buffPresent s t1) = init (buffPresent s t2)
  ∧ update (buffPresent s t1) state event
    = update (buffPresent s t2) state event
  ∧ validate (buffPresent s t1) state event
    = validate (buffPresent s t2) state event
  ∧ (∀ ts src tgt tgt' a,
       let on target := {| timestamp := ts; sourceID := src;
                           targetID := target; ability := a |} in
       update (buffPresent s t1) state (EvApplyBuff (on tgt))
       = update (buffPresent s t1) state (EvApplyBuff (on tgt'))
       ∧ update (buffPresent s t1) state (EvRemoveBuff (on tgt))
         = update (buffPresent s t1) state (EvRemoveBuff (on tgt'))).
Proof. repeat split. Qed.

(** The keys do differ with the target. *)
Example buffPresent_keys :
  key (buffPresent Fixtures.spellB 1) = "buffPresent-202-1"
  ∧ key (buffPresent Fixtures.spellB 2) = "buffPresent-202-2".
Proof. split; reflexivity. Qed.

(** ** Rule selection *)

Lemma firstApplicable_Some rs result event r :
  firstApplicable rs result event = Some r →
  ∃ before after,
    rs = before ++ r :: after
    ∧ Forall (λ q, ruleApplies q result event = false) before
    ∧ ruleApplies r result event = true.
Proof.
  induction rs as [|q rs IH]; simpl; [discriminate|].
  destruct (ruleApplies q result event) eqn:Hq.
  - intros [= <-]. exists [], rs. by repeat split.
  - intros (before & after & -> & Hbefore & Hr)%IH.
    exists (q :: before), after. repeat split; [|done].
    by constructor.
Qed.

Lemma firstApplicable_None rs result event :
  firstApplicable rs result event = None ↔
  Forall (λ q, ruleApplies q result event = false) rs.
Proof.
  induction rs as [|q rs IH]; simpl.
  - split; [constructor|done].
  - destruct (ruleApplies q result event) eqn:Hq.
    + split; [done|]. intros H. apply Forall_cons in H as [? _]. congruence.
    + rewrite IH. split; [by constructor|]. by intros [_ ?]%Forall_cons.
Qed.

Lemma firstApplicable_app before r after result event :
  Forall (λ q, ruleApplies q result event = false) before →
  ruleApplies r result event = true →
  firstApplicable (before ++ r :: after) result event = Some r.
Proof.
  induction 1 as [|q before Hq _ IH]; simpl; intros Hr.
  - by rewrite Hr.
  - rewrite Hq. by apply IH.
Qed.

Lemma ruleApplies_spec rule result event :
  ruleApplies rule result event = true ↔
  (abilityState result !! id (spell rule) = None
   ∨ ∃ usable, abilityState result !! id (spell rule) = Some usable
               ∧ isAvailable usable = true)
  ∧ ((∃ s, rule = Unconditional s)
     ∨ ∃ r, rule = Conditional r
            ∧ truthy (validate (condition r)
                        (prop (conditionState result) (key (condition r)))
                        (EvCast event)) = true).
Proof.
  unfold ruleApplies. rewrite andb_true_iff.
  apply Morphisms_Prop.and_iff_morphism.
  - destruct (abilityState result !! id (spell rule)) as [u|].
    + split; [intros ?; right; eauto|].
      intros [?|(u' & [= <-] & ?)]; done.
    + split; [by left|done].
  - destruct rule as [s|r].
    + split; [intros _; left; eauto|done].
    + split; [intros ?; right; eauto|].
      intros [[s ?]|(r' & [= <-] & ?)]; done.
Qed.

(** C2. [applicableRule] scans [apl.rules] in declaration order and
    returns the first rule that qualifies, and none when no rule does; a
    rule qualifies when its spell has no availability snapshot or the
    snapshot says available, and it is unconditional or its condition
    validates on the current condition state and the event.  With rules
    [[A; B]], [A] qualifying, a cast of [B] is a violation that expects
    [A]. *)
Theorem applicableRule_first_match (apl : Apl) (result : CheckState)
    (event : CastEvent) :
  (∀ r, applicableRule apl result event = Some r ↔
        ∃ before after,
          rules apl = before ++ r :: after
          ∧ Forall (λ q, ruleApplies q result event = false) before
          ∧ ruleApplies r result event = true)
  ∧ (applicableRule apl result event = None ↔
     Forall (λ q, ruleApplies q result event = false) (rules apl))
  ∧ (∀ r, ruleApplies r result event = true ↔
       (abilityState result !! id (spell r) = None
        ∨ ∃ usable, abilityState result !! id (spell r) = Some usable
                    ∧ isAvailable usable = true)
       ∧ ((∃ s, r = Unconditional s)
          ∨ ∃ cr, r = Conditional cr
                  ∧ truthy (validate (condition cr)
                              (prop (conditionState result)
                                    (key (condition cr)))
                              (EvCast event)) = true))
  ∧ (∀ cnds ruleA ruleB info,
       let ab := {| conditions := cnds; rules := [ruleA; ruleB] |} in
       guid (ability event) = id (spell ruleB) →
       id (spell ruleA) ≠ id (spell ruleB) →
       ruleApplies ruleA (initial ab) event = true →
       successes (aplCheck ab [EvCast event] info) = []
       ∧ violations (aplCheck ab [EvCast event] info)
         = [{| rule := ruleA;
               expectedCast := spell ruleA;
               actualCast := ability event |}]).
Proof.
  split; [|split; [|split]].
  - intros r. unfold applicableRule. split.
    + apply firstApplicable_Some.
    + intros (before & after & -> & Hbefore & Hr).
      by apply firstApplicable_app.
  - apply firstApplicable_None.
  - intros r. apply ruleApplies_spec.
  - intros cnds ruleA ruleB info ab Hcast Hne HA.
    rewrite aplCheck_unfold. simpl. unfold reducer, judge.
    rewrite bool_decide_true.
    2:{ unfold applicableSpells, ab. simpl. rewrite Hcast. set_solver. }
    unfold applicableRule. simpl. rewrite HA.
    destruct (Z.eqb_spec (id (spell ruleA)) (guid (ability event)));
      [congruence|]. by simpl.
Qed.

Lemma applicableRule_first_match_witness :
  successes (aplCheck Fixtures.aplAB
               [EvCast (Fixtures.castBy 1 Fixtures.spellB)] Fixtures.player)
  = []
  ∧ violations (aplCheck Fixtures.aplAB
                  [EvCast (Fixtures.castBy 1 Fixtures.spellB)] Fixtures.player)
    = [{| rule := Unconditional Fixtures.spellA;
          expectedCast := Fixtures.spellA;
          actualCast := Fixtures.abilityOf Fixtures.spellB |}].
Proof.
  destruct (applicableRule_first_match Fixtures.aplAB
              (initial Fixtures.aplAB) (Fixtures.castBy 1 Fixtures.spellB))
    as (_ & _ & _ & Hprio).
  apply (Hprio None (Unconditional Fixtures.spellA)
           (Unconditional Fixtures.spellB) Fixtures.player).
  - reflexivity.
  - vm_compute. discriminate.
  - reflexivity.
Defined.

(** ** Availability *)

Lemma updateAbilities_other (state : AbilityState) event (k : Z) :
  (∀ u, event = EvUpdateSpellUsable u → guid (usableAbility u) ≠ k) →
  updateAbilities state event !! k = state !! k.
Proof.
  intros H. destruct event as [e|e|e|u|e]; try reflexivity.
  simpl. apply lookup_insert_ne. by apply H.
Qed.

Lemma fold_updateAbilities_other events (state : AbilityState) (k : Z) :
  (∀ u, EvUpdateSpellUsable u ∈ events → guid (usableAbility u) ≠ k) →
  fold_left updateAbilities events state !! k = state !! k.
Proof.
  revert state. induction events as [|event events IH]; intros state H.
  - reflexivity.
  - simpl. rewrite IH.
    + apply updateAbilities_other. intros u ->. apply H. by left.
    + intros u Hu. apply H. by right.
Qed.

(** C6. A rule whose spell has no availability snapshot passes the
    availability check of [ruleApplies]: the verdict is that of the
    condition alone.  No snapshot exists for a spell that no
    availability update of the processed prefix was about. *)
Theorem absent_snapshot_is_available (apl : Apl) (pre : list AnyEvent)
    (info : Info) (r : Rule) (event : CastEvent) :
  (∀ result,
     abilityState result !! id (spell r) = None →
     ruleApplies r result event
     = match r with
       | Unconditional _ => true
       | Conditional cr =>
           truthy (validate (condition cr)
                     (prop (conditionState result) (key (condition cr)))
                     (EvCast event))
       end)
  ∧ ((∀ u, EvUpdateSpellUsable u ∈ pre →
           guid (usableAbility u) ≠ id (spell r)) →
     abilityState (aplCheck apl pre info) !! id (spell r) = None).
Proof.
  split.
  - intros result Hnone. unfold ruleApplies. by rewrite Hnone.
  - intros Hpre. rewrite aplCheck_unfold, fold_abilityState.
    rewrite fold_updateAbilities_other by done. apply lookup_empty.
Qed.

Lemma absent_snapshot_is_available_witness :
  abilityState
    (aplCheck Fixtures.aplAB
       [EvUpdateSpellUsable (Fixtures.usable Fixtures.spellB false)]
       Fixtures.player) !! id (spell (Unconditional Fixtures.spellA)) = None
  ∧ ruleApplies (Unconditional Fixtures.spellA)
      (aplCheck Fixtures.aplAB
         [EvUpdateSpellUsable (Fixtures.usable Fixtures.spellB false)]
         Fixtures.player)
      (Fixtures.castBy 1 Fixtures.spellA) = true.
Proof.
  destruct (absent_snapshot_is_available Fixtures.aplAB
              [EvUpdateSpellUsable (Fixtures.usable Fixtures.spellB false)]
              Fixtures.player (Unconditional Fixtures.spellA)
              (Fixtures.castBy 1 Fixtures.spellA)) as [Hpass Hnone].
  assert (Habsent : ∀ u,
            EvUpdateSpellUsable u
              ∈ [EvUpdateSpellUsable (Fixtures.usable Fixtures.spellB false)] →
            guid (usableAbility u) ≠ id (spell (Unconditional Fixtures.spellA))).
  { intros u Hu. apply list_elem_of_singleton in Hu.
    injection Hu as ->. vm_compute. discriminate. }
  split; [exact (Hnone Habsent)|].
  rewrite (Hpass _ (Hnone Habsent)). reflexivity.
Defined.

(** ** Classification of a cast *)

(** C4. A cast of a governed spell for which [applicableRule] finds a
    rule appends exactly one record: the rule to [successes] when it
    governs the spell that was cast, and otherwise a violation naming
    the rule, its spell as expected and the cast ability as actual, to
    [violations].  The records of a prefix of the stream stay in front:
    both lists are in stream order. *)
Theorem governed_cast_records (apl : Apl) (pre post : list AnyEvent)
    (info : Info) (c : CastEvent) (r : Rule) :
  guid (ability c) ∈ applicableSpells apl →
  applicableRule apl (aplCheck apl pre info) c = Some r →
  let before := aplCheck apl pre info in
  let after := aplCheck apl (pre ++ [EvCast c]) info in
  let final := aplCheck apl (pre ++ EvCast c :: post) info in
  (id (spell r) = guid (ability c) →
     successes after = successes before ++ [r]
     ∧ violations after = violations before)
  ∧ (id (spell r) ≠ guid (ability c) →
     successes after = successes before
     ∧ violations after
       = violations before
         ++ [{| rule := r; expectedCast := spell r;
                actualCast := ability c |}])
  ∧ (∃ ss, successes final = successes after ++ ss)
  ∧ (∃ vs, violations final = violations after ++ vs).
Proof.
  intros Hgov Hrule before after final.
  assert (Hafter : after = reducer apl before (EvCast c))
    by apply aplCheck_snoc.
  assert (Hfinal : final = fold_left (reducer apl) post after).
  { unfold final, after. rewrite <- aplCheck_app, <- app_assoc. reflexivity. }
  split; [|split].
  - intros Heq. rewrite Hafter. unfold reducer, judge.
    rewrite bool_decide_true by done. unfold before. rewrite Hrule.
    apply Z.eqb_eq in Heq. rewrite Heq. by simpl.
  - intros Hne. rewrite Hafter. unfold reducer, judge.
    rewrite bool_decide_true by done. unfold before. rewrite Hrule.
    apply Z.eqb_neq in Hne. rewrite Hne. by simpl.
  - rewrite Hfinal. apply fold_extends.
Qed.

Lemma governed_cast_records_witness :
  successes (aplCheck Fixtures.aplAB
               ([EvCast (Fixtures.castBy 1 Fixtures.spellA)]
                ++ [EvCast (Fixtures.castBy 1 Fixtures.spellA)])
               Fixtures.player)
  = successes (aplCheck Fixtures.aplAB
                 [EvCast (Fixtures.castBy 1 Fixtures.spellA)] Fixtures.player)
    ++ [Unconditional Fixtures.spellA].
Proof.
  refine (proj1 (proj1 (governed_cast_records Fixtures.aplAB
            [EvCast (Fixtures.castBy 1 Fixtures.spellA)] []
            Fixtures.player (Fixtures.castBy 1 Fixtures.spellA)
            (Unconditional Fixtures.spellA) _ _) _)).
  - refine (bool_decide_unpack _ _). vm_compute. exact I.
  - reflexivity.
  - reflexivity.
Defined.

(** C5. A cast for which no rule qualifies at decision time adds
    nothing to [successes] and nothing to [violations].  So with one
    rule for [A], an update marking [A] unavailable followed by a cast
    of [A] gives an empty result. *)
Theorem no_rule_no_record (apl : Apl) (result : CheckState) (c : CastEvent) :
  applicableRule apl result c = None →
  successes (reducer apl result (EvCast c)) = successes result
  ∧ violations (reducer apl result (EvCast c)) = violations result
  ∧ (∀ s usable info,
       let only := {| conditions := conditions apl;
                      rules := [Unconditional s] |} in
       guid (usableAbility usable) = id s →
       isAvailable usable = false →
       guid (ability c) = id s →
       applicableRule only (aplCheck only [EvUpdateSpellUsable usable] info) c
       = None
       ∧ successes (aplCheck only [EvUpdateSpellUsable usable; EvCast c] info)
         = []
       ∧ violations (aplCheck only [EvUpdateSpellUsable usable; EvCast c] info)
         = []).
Proof.
  intros Hnone.
  split; [|split];
    [unfold reducer, judge; rewrite Hnone; simpl; by case_bool_decide ..|].
  intros s usable info only Hu Hunavailable Hc.
  assert (Hdecide :
    applicableRule only (aplCheck only [EvUpdateSpellUsable usable] info) c
    = None).
  { unfold applicableRule. simpl. unfold ruleApplies. simpl.
    rewrite Hu, lookup_insert_eq, Hunavailable. reflexivity. }
  split; [exact Hdecide|].
  change [EvUpdateSpellUsable usable; EvCast c]
    with ([EvUpdateSpellUsable usable] ++ [EvCast c]).
  rewrite aplCheck_snoc. unfold reducer, judge. rewrite Hdecide. simpl.
  split; by case_bool_decide.
Qed.

Lemma no_rule_no_record_witness :
  successes
    (aplCheck Fixtures.aplA
       [EvUpdateSpellUsable (Fixtures.usable Fixtures.spellA false);
        EvCast (Fixtures.castBy 1 Fixtures.spellA)] Fixtures.player) = []
  ∧ violations
      (aplCheck Fixtures.aplA
         [EvUpdateSpellUsable (Fixtures.usable Fixtures.spellA false);
          EvCast (Fixtures.castBy 1 Fixtures.spellA)] Fixtures.player) = [].
Proof.
  assert (Hnone :
    applicableRule Fixtures.aplA
      (aplCheck Fixtures.aplA
         [EvUpdateSpellUsable (Fixtures.usable Fixtures.spellA false)]
         Fixtures.player)
      (Fixtures.castBy 1 Fixtures.spellA) = None) by reflexivity.
  destruct (no_rule_no_record Fixtures.aplA _ _ Hnone) as (_ & _ & Hgate).
  destruct (Hgate Fixtures.spellA (Fixtures.usable Fixtures.spellA false)
              Fixtures.player eq_refl eq_refl eq_refl) as (_ & Hs & Hv).
  split; [exact Hs | exact Hv].
Defined.

(** ** The store model agrees with the functional reading *)

Section Store.

Variable apl : Apl.

Lemma snapshot_Some h r st :
  snapshot h r = Some st ↔
  h !! successesRef r = Some (RuleArray (successes st))
  ∧ h !! violationsRef r = Some (ViolationArray (violations st))
  ∧ h !! abilityStateRef r = Some (AbilityObject (abilityState st))
  ∧ conditionStateObj r = conditionState st.
Proof.
  unfold snapshot, readRules, readViolations, readAbilities.
  destruct st as [ss vs cs m]. simpl. split.
  - destruct (h !! successesRef r) as [[]|]; simpl; try discriminate.
    destruct (h !! violationsRef r) as [[]|]; simpl; try discriminate.
    destruct (h !! abilityStateRef r) as [[]|]; simpl; try discriminate.
    by intros [= -> -> -> ->].
  - intros (-> & -> & -> & ->). reflexivity.
Qed.

Lemma judgeRef_simulates r st event h :
  snapshot h r = Some st →
  ∃ h', judgeRef apl r event h = Some h'
        ∧ snapshot h' r = Some (judge apl st event)
        ∧ frame r h h'.
Proof.
  intros Hsnap.
  assert (Hstay : ∃ h', Some h = Some h' ∧ snapshot h' r = Some st
                        ∧ frame r h h') by (exists h; by repeat split).
  unfold judgeRef, judge. destruct event as [c|e|e|e|e]; try exact Hstay.
  case_bool_decide; [|exact Hstay].
  rewrite Hsnap. simpl.
  destruct (applicableRule apl st c) as [x|]; [|exact Hstay].
  pose proof Hsnap as (Hs & Hv & Ha & Hc)%snapshot_Some.
  destruct (_ =? _).
  - unfold pushRuleAt, readRules. rewrite Hs. simpl. eexists.
    split; [reflexivity|]. split.
    + apply snapshot_Some. simpl. rewrite lookup_insert_eq.
      rewrite !lookup_insert_ne by congruence. done.
    + intros l Hl _ _. by apply lookup_insert_ne.
  - unfold pushViolationAt, readViolations. rewrite Hv. simpl. eexists.
    split; [reflexivity|]. split.
    + apply snapshot_Some. simpl. rewrite lookup_insert_eq.
      rewrite !lookup_insert_ne by congruence. done.
    + intros l _ Hl _. by apply lookup_insert_ne.
Qed.

Lemma reducerRef_simulates r st event h :
  snapshot h r = Some st →
  ∃ r' h', reducerRef apl r event h = Some (r', h')
           ∧ snapshot h' r' = Some (reducer apl st event)
           ∧ successesRef r' = successesRef r
           ∧ violationsRef r' = violationsRef r
           ∧ abilityStateRef r' = abilityStateRef r
           ∧ frame r h h'.
Proof.
  intros Hsnap. unfold reducerRef.
  destruct (judgeRef_simulates r st event h Hsnap)
    as (h1 & -> & Hsnap1 & Hframe1). simpl.
  pose proof Hsnap as (_ & _ & _ & Hcond)%snapshot_Some.
  pose proof Hsnap1 as (Hs & Hv & Ha & Hc)%snapshot_Some.
  assert (Hsame : ∀ h2 m,
    h2 !! successesRef r = Some (RuleArray (successes (judge apl st event))) →
    h2 !! violationsRef r
      = Some (ViolationArray (violations (judge apl st event))) →
    h2 !! abilityStateRef r = Some (AbilityObject m) →
    m = updateAbilities (abilityState (judge apl st event)) event →
    frame r h h2 →
    ∃ r' h', Some ({| successesRef := successesRef r;
                      violationsRef := violationsRef r;
                      conditionStateObj :=
                        updateState apl (conditionStateObj r) event;
                      abilityStateRef := abilityStateRef r |}, h2)
             = Some (r', h')
             ∧ snapshot h' r' = Some (reducer apl st event)
             ∧ successesRef r' = successesRef r
             ∧ violationsRef r' = violationsRef r
             ∧ abilityStateRef r' = abilityStateRef r
             ∧ frame r h h').
  { intros h2 m H1 H2 H3 -> Hframe. do 2 eexists.
    split; [reflexivity|]. split; [|done].
    apply snapshot_Some. simpl. rewrite judge_conditionState, Hcond.
    done. }
  unfold updateAbilitiesAt.
  destruct event as [e|e|e|u|e]; simpl;
    try exact (Hsame h1 _ Hs Hv Ha eq_refl Hframe1).
  unfold readAbilities. rewrite Ha. simpl.
  eapply Hsame; [| |apply lookup_insert_eq|reflexivity|].
  - rewrite lookup_insert_ne by congruence. exact Hs.
  - rewrite lookup_insert_ne by congruence. exact Hv.
  - intros l H1 H2 H3. rewrite lookup_insert_ne by done.
    by apply Hframe1.
Qed.

Lemma reduceRef_simulates events r st h :
  snapshot h r = Some st →
  ∃ r' h', reduceRef apl events r h = Some (r', h')
           ∧ snapshot h' r' = Some (fold_left (reducer apl) events st)
           ∧ frame r h h'.
Proof.
  revert r st h. induction events as [|event events IH]; intros r st h Hsnap.
  - exists r, h. by repeat split.
  - simpl.
    destruct (reducerRef_simulates r st event h Hsnap)
      as (r1 & h1 & -> & Hsnap1 & Es & Ev & Ea & Hframe1). simpl.
    destruct (IH r1 _ h1 Hsnap1) as (r' & h' & -> & Hsnap' & Hframe').
    exists r', h'. split; [reflexivity|]. split; [exact Hsnap'|].
    intros l H1 H2 H3. rewrite Hframe' by congruence. by apply Hframe1.
Qed.

Lemma alloc_fresh (h : store) c : h !! (alloc h c).1 = None.
Proof.
  unfold alloc. simpl. apply not_elem_of_dom. apply is_fresh.
Qed.

(** Allocation of the accumulator: three new cells, everything that
    was in the store before stays. *)
Lemma initialRef_snapshot h :
  let '(r, h0) := initialRef apl h in
  snapshot h0 r = Some (initial apl)
  ∧ h !! successesRef r = None
  ∧ h !! violationsRef r = None
  ∧ h !! abilityStateRef r = None
  ∧ frame r h h0.
Proof.
  unfold initialRef, alloc.
  set (ls := fresh (dom h)).
  set (h1 := <[ls := RuleArray []]> h).
  set (lv := fresh (dom h1)).
  set (h2 := <[lv := ViolationArray []]> h1).
  set (la := fresh (dom h2)).
  assert (Hls : h !! ls = None) by apply (alloc_fresh h (RuleArray [])).
  assert (Hlv : h1 !! lv = None) by apply (alloc_fresh h1 (ViolationArray [])).
  assert (Hla : h2 !! la = None) by apply (alloc_fresh h2 (AbilityObject ∅)).
  assert (lv ≠ ls).
  { intros E. rewrite E in Hlv. unfold h1 in Hlv.
    by rewrite lookup_insert_eq in Hlv. }
  assert (la ≠ lv).
  { intros E. rewrite E in Hla. unfold h2 in Hla.
    by rewrite lookup_insert_eq in Hla. }
  assert (la ≠ ls).
  { intros E. rewrite E in Hla. unfold h2, h1 in Hla.
    rewrite lookup_insert_ne, lookup_insert_eq in Hla; done. }
  split; [|split; [|split; [|split]]].
  - apply snapshot_Some. simpl. unfold h2, h1.
    rewrite lookup_insert_eq.
    rewrite (lookup_insert_ne _ la lv), lookup_insert_eq by done.
    rewrite (lookup_insert_ne _ la ls), (lookup_insert_ne _ lv ls) by done.
    by rewrite lookup_insert_eq.
  - exact Hls.
  - simpl. unfold h1 in Hlv. by rewrite lookup_insert_ne in Hlv.
  - simpl. unfold h2, h1 in Hla. by rewrite !lookup_insert_ne in Hla.
  - intros l Hne1 Hne2 Hne3. simpl in *. unfold h2, h1.
    by rewrite !lookup_insert_ne.
Qed.

(** A call on any store returns; what it returns denotes the value of
    the functional reading, and the cells the store held before the
    call are unchanged. *)
Lemma aplCheckRef_simulates events info h :
  ∃ r h', aplCheckRef apl events info h = Some (r, h')
          ∧ snapshot h' r = Some (aplCheck apl events info)
          ∧ ∀ l, is_Some (h !! l) → h' !! l = h !! l.
Proof.
  unfold aplCheckRef, metric.
  pose proof (initialRef_snapshot h) as Hinit.
  destruct (initialRef apl h) as [r0 h0].
  destruct Hinit as (Hsnap & Hs & Hv & Ha & Hframe0).
  destruct (reduceRef_simulates events r0 _ h0 Hsnap)
    as (r & h' & Hrun & Hsnap' & Hframe).
  exists r, h'. split; [exact Hrun|]. split; [exact Hsnap'|].
  intros l [c Hl].
  assert (l ≠ successesRef r0 ∧ l ≠ violationsRef r0
          ∧ l ≠ abilityStateRef r0) as (H1 & H2 & H3)
    by (repeat split; congruence).
  rewrite Hframe, Hframe0 by done. reflexivity.
Qed.

Lemma evaluate_pure events info h :
  evaluate apl events info h
  = Some (checkResult (aplCheck apl events info)).
Proof.
  unfold evaluate.
  destruct (aplCheckRef_simulates events info h)
    as (r & h' & Hrun & Hsnap & _).
  rewrite Hrun. simpl. rewrite Hsnap. reflexivity.
Qed.

End Store.

(** ** Condition state *)

Section ConditionStore.

Variable f : Condition → jsval.

Lemma fold_insert_other cnds (m : ConditionState) (k : string) :
  (∀ cnd, cnd ∈ cnds → key cnd ≠ k) →
  fold_left (λ (state : ConditionState) cnd, <[key cnd := f cnd]> state)
            cnds m !! k = m !! k.
Proof.
  revert m. induction cnds as [|c cnds IH]; intros m H; [reflexivity|].
  simpl. rewrite IH.
  - apply lookup_insert_ne. apply H. by left.
  - intros cnd Hin. apply H. by right.
Qed.

Lemma fold_insert_in cnds (m : ConditionState) cnd :
  NoDup (key <$> cnds) → cnd ∈ cnds →
  fold_left (λ (state : ConditionState) cnd, <[key cnd := f cnd]> state)
            cnds m !! key cnd = Some (f cnd).
Proof.
  revert m. induction cnds as [|c cnds IH]; intros m Hnd Hin.
  - by apply elem_of_nil in Hin.
  - simpl in *. apply NoDup_cons in Hnd as [Hc Hnd].
    apply elem_of_cons in Hin as [->|Hin].
    + rewrite fold_insert_other; [apply lookup_insert_eq|].
      intros cnd Hcnd E. apply Hc. rewrite <- E.
      by apply list_elem_of_fmap_2.
    + by apply IH.
Qed.

End ConditionStore.

Lemma updateState_registered apl cnds old event cnd :
  conditions apl = Some cnds → NoDup (key <$> cnds) → cnd ∈ cnds →
  updateState apl old event !! key cnd
  = Some (update cnd (prop old (key cnd)) event).
Proof.
  intros Hc Hnd Hin. unfold updateState. rewrite Hc.
  by apply (fold_insert_in (λ cnd, update cnd (prop old (key cnd)) event)).
Qed.

Lemma initState_unregistered apl (k : string) :
  (∀ cnds cnd, conditions apl = Some cnds → cnd ∈ cnds → key cnd ≠ k) →
  initState apl !! k = None.
Proof.
  intros H. unfold initState. destruct (conditions apl) as [cnds|] eqn:Hc.
  - rewrite (fold_insert_other init) by eauto. apply lookup_empty.
  - apply lookup_empty.
Qed.

Lemma updateState_unregistered apl old event (k : string) :
  (∀ cnds cnd, conditions apl = Some cnds → cnd ∈ cnds → key cnd ≠ k) →
  updateState apl old event !! k = None.
Proof.
  intros H. unfold updateState. destruct (conditions apl) as [cnds|] eqn:Hc.
  - rewrite (fold_insert_other (λ cnd, update cnd (prop old (key cnd)) event))
      by eauto.
    apply lookup_empty.
  - apply lookup_empty.
Qed.

Lemma conditionState_unregistered apl pre info (k : string) :
  (∀ cnds cnd, conditions apl = Some cnds → cnd ∈ cnds → key cnd ≠ k) →
  conditionState (aplCheck apl pre info) !! k = None.
Proof.
  intros H. induction pre as [|event pre' _] using rev_ind.
  - by apply initState_unregistered.
  - rewrite aplCheck_snoc, reducer_conditionState.
    by apply updateState_unregistered.
Qed.

(** ** Decision before update *)

Lemma ruleApplies_ext r (st st' : CheckState) c :
  abilityState st' = abilityState st →
  conditionState st' = conditionState st →
  ruleApplies r st' c = ruleApplies r st c.
Proof. intros Ha Hc. unfold ruleApplies. by rewrite Ha, Hc. Qed.

Lemma firstApplicable_ext rs (st st' : CheckState) c :
  abilityState st' = abilityState st →
  conditionState st' = conditionState st →
  firstApplicable rs st' c = firstApplicable rs st c.
Proof.
  intros Ha Hc. induction rs as [|r rs IH]; [reflexivity|].
  simpl. by rewrite IH, (ruleApplies_ext r st st').
Qed.

(** C3. The decision for an event reads the availability state and the
    condition state of the strict prefix of the stream before it: both
    are folds of the updates over that prefix alone, the rule is chosen
    from them, and only then are the tracker and every condition
    advanced with the event.  A condition whose [update] is triggered by
    the cast under judgement is still validated on its state from
    before that cast. *)
Theorem decision_reads_strict_prefix (apl : Apl) (pre : list AnyEvent)
    (event : AnyEvent) (info : Info) :
  let before := aplCheck apl pre info in
  let after := aplCheck apl (pre ++ [event]) info in
  abilityState before = fold_left updateAbilities pre ∅
  ∧ conditionState before = fold_left (updateState apl) pre (initState apl)
  ∧ successes after = successes (judge apl before event)
  ∧ violations after = violations (judge apl before event)
  ∧ (∀ c other,
       abilityState other = abilityState before →
       conditionState other = conditionState before →
       applicableRule apl other c = applicableRule apl before c)
  ∧ abilityState after = updateAbilities (abilityState before) event
  ∧ conditionState after = updateState apl (conditionState before) event
  ∧ (∀ cnds cnd,
       conditions apl = Some cnds → NoDup (key <$> cnds) → cnd ∈ cnds →
       conditionState after !! key cnd
       = Some (update cnd (prop (conditionState before) (key cnd)) event))
  ∧ (let castA := EvCast (Fixtures.castBy 1 Fixtures.spellA) in
     let once := aplCheck Fixtures.aplSelf [castA] info in
     let twice := aplCheck Fixtures.aplSelf [castA; castA] info in
     successes once = [] ∧ violations once = []
     ∧ conditionState once !! "castSeen" = Some (JBool true)
     ∧ successes twice = rules Fixtures.aplSelf ∧ violations twice = []).
Proof.
  intros before after.
  assert (Hafter : after = reducer apl before event) by apply aplCheck_snoc.
  split; [apply fold_abilityState|].
  split; [apply fold_conditionState|].
  split; [by rewrite Hafter|].
  split; [by rewrite Hafter|].
  split; [intros c other Ha Hc; by apply firstApplicable_ext|].
  split; [rewrite Hafter; apply reducer_abilityState|].
  split; [rewrite Hafter; apply reducer_conditionState|].
  split; [|by repeat split].
  intros cnds cnd Hc Hnd Hin.
  rewrite Hafter, reducer_conditionState.
  by apply updateState_registered with cnds.
Qed.

Lemma decision_reads_strict_prefix_witness :
  let applyB := EvApplyBuff (Fixtures.buffOn 1 Fixtures.spellB) in
  conditionState (aplCheck Fixtures.aplGuarded [] Fixtures.player)
    !! key (buffPresent Fixtures.spellB 1) = Some (JBool false)
  ∧ successes (aplCheck Fixtures.aplGuarded ([] ++ [applyB]) Fixtures.player)
    = []
  ∧ conditionState (aplCheck Fixtures.aplGuarded ([] ++ [applyB])
                      Fixtures.player)
      !! key (buffPresent Fixtures.spellB 1) = Some (JBool true).
Proof.
  intros applyB.
  destruct (decision_reads_strict_prefix Fixtures.aplGuarded [] applyB
              Fixtures.player)
    as (_ & _ & Hs & _ & _ & _ & _ & Hcnd & _).
  split; [reflexivity|]. split; [exact Hs|].
  apply (Hcnd [buffPresent Fixtures.spellB 1] (buffPresent Fixtures.spellB 1)).
  - reflexivity.
  - apply NoDup_singleton.
  - apply list_elem_of_singleton. reflexivity.
Defined.

(** ** Unregistered conditions *)

(** C8, as the code has it.  When the key of a rule's condition is not
    among the keys of [apl.conditions], the evaluation still returns a
    result, and at every point of the stream the condition state has no
    entry of its own for that key: the fold never creates one.  When
    the key is not a property name of [Object.prototype], the lookup
    reads as undefined and that undefined value is what [validate] is
    called with.  When it is one, the lookup reads the inherited member
    and [validate] is called with that. *)
Theorem unregistered_condition_key (apl : Apl) (pre : list AnyEvent)
    (info : Info) (cr : ConditionalRule) (event : CastEvent) :
  (∀ cnds cnd, conditions apl = Some cnds → cnd ∈ cnds →
               key cnd ≠ key (condition cr)) →
  let result := aplCheck apl pre info in
  let available :=
    match abilityState result !! id (ruleSpell cr) with
    | None => true
    | Some usable => isAvailable usable
    end in
  conditionState result !! key (condition cr) = None
  ∧ (key (condition cr) ∉ objectPrototype →
     prop (conditionState result) (key (condition cr)) = JUndefined
     ∧ ruleApplies (Conditional cr) result event
       = available
         && truthy (validate (condition cr) JUndefined (EvCast event)))
  ∧ (key (condition cr) ∈ objectPrototype →
     prop (conditionState result) (key (condition cr))
     = JInherited (key (condition cr))
     ∧ ruleApplies (Conditional cr) result event
       = available
         && truthy (validate (condition cr)
                      (JInherited (key (condition cr))) (EvCast event)))
  ∧ (∀ h, evaluate apl pre info h = Some (checkResult result)).
Proof.
  intros Hkey result available.
  assert (Hnone : conditionState result !! key (condition cr) = None)
    by by apply conditionState_unregistered.
  split; [exact Hnone|].
  split; [|split; [|intros h; apply evaluate_pure]].
  - intros Hown.
    assert (Hundef : prop (conditionState result) (key (condition cr))
                     = JUndefined).
    { unfold prop. rewrite Hnone. by rewrite bool_decide_false. }
    split; [exact Hundef|].
    unfold ruleApplies. simpl. by rewrite Hundef.
  - intros Hinherited.
    assert (Hmember : prop (conditionState result) (key (condition cr))
                      = JInherited (key (condition cr))).
    { unfold prop. rewrite Hnone. by rewrite bool_decide_true. }
    split; [exact Hmember|].
    unfold ruleApplies. simpl. by rewrite Hmember.
Qed.

Lemma unregistered_condition_key_witness :
  let stream := [EvApplyBuff (Fixtures.buffOn 1 Fixtures.spellB)] in
  let cast := Fixtures.castBy 1 Fixtures.spellA in
  prop (conditionState (aplCheck Fixtures.aplUnregistered stream
                          Fixtures.player))
       (key (condition Fixtures.guardedA)) = JUndefined
  ∧ ruleApplies (Conditional Fixtures.guardedA)
      (aplCheck Fixtures.aplUnregistered stream Fixtures.player) cast = false
  ∧ ruleApplies (Conditional Fixtures.guardedA)
      (aplCheck Fixtures.aplGuarded stream Fixtures.player) cast = true
  ∧ evaluate Fixtures.aplUnregistered (stream ++ [EvCast cast])
      Fixtures.player ∅
    = Some {| resSuccesses := []; resViolations := [] |}.
Proof.
  intros stream cast.
  assert (Hkey : ∀ cnds cnd,
            conditions Fixtures.aplUnregistered = Some cnds → cnd ∈ cnds →
            key cnd ≠ key (condition Fixtures.guardedA)).
  { intros cnds cnd [= <-] Hin. by apply elem_of_nil in Hin. }
  assert (Hown : key (condition Fixtures.guardedA) ∉ objectPrototype).
  { refine (bool_decide_unpack _ _). vm_compute. exact I. }
  destruct (unregistered_condition_key Fixtures.aplUnregistered stream
              Fixtures.player Fixtures.guardedA cast Hkey)
    as (_ & Hundef & _ & _).
  destruct (Hundef Hown) as [Hread Happlies].
  split; [exact Hread|]. split; [rewrite Happlies; reflexivity|].
  split; [reflexivity|].
  destruct (unregistered_condition_key Fixtures.aplUnregistered
              (stream ++ [EvCast cast]) Fixtures.player Fixtures.guardedA
              cast Hkey) as (_ & _ & _ & Hruns).
  rewrite Hruns. reflexivity.
Defined.

(** C8 as it was stated does not hold: the condition of this rule is not
    registered, its key is [constructor], and the lookup in the
    condition state is not absent.  It reads the member inherited from
    [Object.prototype], [validate] returns that truthy value, the rule
    qualifies and the cast is recorded as a success. *)
Lemma unregistered_inherited_key_counterexample :
  (∀ cnds cnd, conditions InheritedKey.aplFlagged = Some cnds → cnd ∈ cnds →
               key cnd ≠ key (condition InheritedKey.flaggedA))
  ∧ conditionState (aplCheck InheritedKey.aplFlagged [] Fixtures.player)
      !! key (condition InheritedKey.flaggedA) = None
  ∧ prop (conditionState (aplCheck InheritedKey.aplFlagged [] Fixtures.player))
         (key (condition InheritedKey.flaggedA))
    ≠ JUndefined
  ∧ validate (condition InheritedKey.flaggedA)
      (prop (conditionState
               (aplCheck InheritedKey.aplFlagged [] Fixtures.player))
            (key (condition InheritedKey.flaggedA)))
      (EvCast (Fixtures.castBy 1 Fixtures.spellA))
    = JInherited "constructor"
  ∧ successes (aplCheck InheritedKey.aplFlagged
                 [EvCast (Fixtures.castBy 1 Fixtures.spellA)] Fixtures.player)
    = [Conditional InheritedKey.flaggedA].
Proof.
  split; [intros cnds cnd [= <-] Hin; by apply elem_of_nil in Hin|].
  split; [reflexivity|]. split; [discriminate|].
  split; reflexivity.
Qed.

(** ** The subject actor *)

(** C1, as the code has it.  [playerId] is bound and never read, and
    the source of an event is never inspected: a cast of a governed
    spell by another actor is judged like the player's own and leaves a
    record, and the result is the same for every player id. *)
Theorem cast_by_other_actor_is_judged :
  let foreignA := Fixtures.castBy 2 Fixtures.spellA in
  let foreignB := Fixtures.castBy 2 Fixtures.spellB in
  sourceID foreignA ≠ playerId Fixtures.player
  ∧ successes (aplCheck Fixtures.aplA [EvCast foreignA] Fixtures.player)
    = [Unconditional Fixtures.spellA]
  ∧ violations (aplCheck Fixtures.aplAB [EvCast foreignB] Fixtures.player)
    = [{| rule := Unconditional Fixtures.spellA;
          expectedCast := Fixtures.spellA;
          actualCast := Fixtures.abilityOf Fixtures.spellB |}]
  ∧ (∀ apl events info info',
       aplCheck apl events info = aplCheck apl events info').
Proof.
  intros foreignA foreignB.
  split; [vm_compute; discriminate|].
  split; [reflexivity|]. split; reflexivity.
Qed.

(** ** Determinism *)

(** C9. The check is a function of [(apl, events, playerId)] alone:
    whatever the store holds when a call starts, the call returns, and
    the result it returns is the same value.  Two calls in a row give
    equal accumulators, the second leaves the arrays of the first as
    they were, and a call changes no cell that existed before it. *)
Theorem aplCheck_deterministic (apl : Apl) (events : list AnyEvent)
    (info : Info) (h1 h2 : store) :
  evaluate apl events info h1 = evaluate apl events info h2
  ∧ evaluate apl events info h1
    = Some (checkResult (aplCheck apl events info))
  ∧ ∃ r1 h1' r2 h1'',
      aplCheckRef apl events info h1 = Some (r1, h1')
      ∧ aplCheckRef apl events info h1' = Some (r2, h1'')
      ∧ snapshot h1'' r2 = snapshot h1' r1
      ∧ snapshot h1'' r1 = snapshot h1' r1
      ∧ is_Some (snapshot h1' r1)
      ∧ (∀ l, is_Some (h1 !! l) → h1' !! l = h1 !! l).
Proof.
  split; [by rewrite !evaluate_pure|].
  split; [apply evaluate_pure|].
  destruct (aplCheckRef_simulates apl events info h1)
    as (r1 & h1' & Hrun1 & Hsnap1 & Hkeep1).
  destruct (aplCheckRef_simulates apl events info h1')
    as (r2 & h1'' & Hrun2 & Hsnap2 & Hkeep2).
  exists r1, h1', r2, h1''.
  split; [exact Hrun1|]. split; [exact Hrun2|].
  split; [by rewrite Hsnap1, Hsnap2|].
  split; [|split; [by rewrite Hsnap1|exact Hkeep1]].
  rewrite Hsnap1.
  apply snapshot_Some in Hsnap1 as (Hs & Hv & Ha & Hc).
  apply snapshot_Some.
  rewrite !Hkeep2 by (by eexists). done.
Qed.

(** The store model is not vacuous: a call on a store that already holds
    the arrays of an earlier call. *)
Example evaluate_after_earlier_call :
  let stream := [EvCast (Fixtures.castBy 1 Fixtures.spellA)] in
  ∃ r h', aplCheckRef Fixtures.aplAB stream Fixtures.player ∅ = Some (r, h')
          ∧ size h' = 3%nat
          ∧ evaluate Fixtures.aplAB stream Fixtures.player h'
            = Some {| resSuccesses := [Unconditional Fixtures.spellA];
                      resViolations := [] |}.
Proof.
  intros stream.
  destruct (aplCheckRef Fixtures.aplAB stream Fixtures.player ∅)
    as [[r h']|] eqn:Hrun; [|by vm_compute in Hrun].
  exists r, h'. split; [reflexivity|].
  vm_compute in Hrun. injection Hrun as <- <-.
  split; reflexivity.
Qed.


(** * Further properties of the engine *)

(** ** Keys of the condition state *)

Lemma fold_insert_dom (f : Condition → jsval) cnds (m : ConditionState) :
  dom (fold_left (λ (state : ConditionState) cnd, <[key cnd := f cnd]> state)
                 cnds m)
  = list_to_set (key <$> cnds) ∪ dom m.
Proof.
  revert m. induction cnds as [|c cnds IH]; intros m; simpl.
  - by rewrite (left_id_L ∅ (∪)).
  - rewrite IH, dom_insert_L, (assoc_L (∪)).
    by rewrite (comm_L (∪) (list_to_set (key <$> cnds)) {[key c]}).
Qed.

Lemma initState_dom apl : dom (initState apl) = conditionKeys apl.
Proof.
  unfold initState, conditionKeys. destruct (conditions apl) as [cnds|]; simpl.
  - rewrite fold_insert_dom, dom_empty_L. apply (right_id_L ∅ (∪)).
  - apply dom_empty_L.
Qed.

Lemma updateState_dom apl old event :
  dom (updateState apl old event) = conditionKeys apl.
Proof.
  unfold updateState, conditionKeys. destruct (conditions apl) as [cnds|]; simpl.
  - rewrite fold_insert_dom, dom_empty_L. apply (right_id_L ∅ (∪)).
  - apply dom_empty_L.
Qed.

Lemma conditionState_dom apl pre info :
  dom (conditionState (aplCheck apl pre info)) = conditionKeys apl.
Proof.
  induction pre as [|e pre' _] using rev_ind.
  - apply initState_dom.
  - rewrite aplCheck_snoc, reducer_conditionState. apply updateState_dom.
Qed.

(** X1. The condition state holds the keys of [apl.conditions] and no
    other, from the start and after every event: [updateState] rebuilds
    the object from [{}], so whatever else the old state held is
    dropped. *)
Theorem conditionState_keys (apl : Apl) (pre : list AnyEvent) (info : Info)
    (old : ConditionState) (event : AnyEvent) :
  dom (conditionState (aplCheck apl pre info)) = conditionKeys apl
  ∧ dom (updateState apl old event) = conditionKeys apl.
Proof.
  split; [apply conditionState_dom | apply updateState_dom].
Qed.

Lemma fold_insert_last (f : Condition → jsval) before c after
    (m : ConditionState) :
  Forall (λ c', key c' ≠ key c) after →
  fold_left (λ (state : ConditionState) cnd, <[key cnd := f cnd]> state)
            (before ++ c :: after) m !! key c = Some (f c).
Proof.
  intros Hafter. rewrite fold_left_app. simpl.
  rewrite fold_insert_other; [apply lookup_insert_eq|].
  intros cnd Hin. by apply (proj1 (Forall_forall _ _) Hafter).
Qed.

Lemma conditionState_of_last (apl : Apl) (before after : list Condition)
    (c : Condition) (pre : list AnyEvent) (info : Info) :
  conditions apl = Some (before ++ c :: after) →
  Forall (λ c', key c' ≠ key c) after →
  conditionState (aplCheck apl pre info) !! key c
  = Some (fold_left (update c) pre (init c)).
Proof.
  intros Hc Hafter. induction pre as [|e pre' IH] using rev_ind.
  - rewrite aplCheck_unfold. simpl. unfold initState. rewrite Hc.
    by apply (fold_insert_last init).
  - rewrite aplCheck_snoc, reducer_conditionState, fold_left_app. simpl.
    unfold updateState at 1. rewrite Hc.
    rewrite (fold_insert_last
               (λ cnd, update cnd
                         (prop (conditionState (aplCheck apl pre' info))
                               (key cnd)) e)) by done.
    unfold prop. by rewrite IH.
Qed.

(** X2. Under a key that several conditions share, the state is that of
    the last of them in [apl.conditions]: it starts as that condition's
    [init] and is advanced by that condition's [update] alone, one
    event at a time; the conditions before it under the same key leave
    no trace. *)
Theorem last_condition_with_key_wins (apl : Apl) (before after : list Condition)
    (c : Condition) (pre : list AnyEvent) (info : Info) :
  conditions apl = Some (before ++ c :: after) →
  Forall (λ c', key c' ≠ key c) after →
  conditionState (aplCheck apl pre info) !! key c
  = Some (fold_left (update c) pre (init c)).
Proof. apply conditionState_of_last. Qed.

Lemma last_condition_with_key_wins_witness :
  conditionState
    (aplCheck Shadowing.aplShadowed
       [EvCast (Fixtures.castBy 1 Fixtures.spellA)] Fixtures.player)
    !! "castSeen" = Some (JBool false).
Proof.
  exact (last_condition_with_key_wins Shadowing.aplShadowed
           [Fixtures.castSeen Fixtures.spellA] []
           (Fixtures.castSeen Fixtures.spellB)
           [EvCast (Fixtures.castBy 1 Fixtures.spellA)] Fixtures.player
           eq_refl (Forall_nil_2 _)).
Defined.

(** ** Snapshots of the availability tracker *)

Lemma fold_updateAbilities_origin events (m : AbilityState) (k : Z) u :
  fold_left updateAbilities events m !! k = Some u →
  m !! k = Some u
  ∨ (EvUpdateSpellUsable u ∈ events ∧ guid (usableAbility u) = k).
Proof.
  revert m. induction events as [|e events IH]; intros m H; [by left|].
  simpl in H. apply IH in H as [H|[Hin Hk]].
  - destruct e as [c|a|a|u'|a]; simpl in H; try by left.
    destruct (decide (guid (usableAbility u') = k)) as [<-|Hne].
    + rewrite lookup_insert_eq in H. injection H as ->.
      right. split; [by left|done].
    + rewrite lookup_insert_ne in H by done. by left.
  - right. split; [by right|done].
Qed.

(** X3. The snapshot kept for a spell is the latest availability update
    about it: an update followed by no other update for the same spell
    is what the tracker holds at the end of the stream. *)
Theorem latest_snapshot_wins (apl : Apl) (pre post : list AnyEvent)
    (u : UpdateSpellUsableEvent) (info : Info) :
  (∀ u', EvUpdateSpellUsable u' ∈ post →
         guid (usableAbility u') ≠ guid (usableAbility u)) →
  abilityState (aplCheck apl (pre ++ EvUpdateSpellUsable u :: post) info)
    !! guid (usableAbility u) = Some u.
Proof.
  intros Hpost. rewrite aplCheck_unfold, fold_abilityState, fold_left_app.
  simpl. rewrite fold_updateAbilities_other by done.
  apply lookup_insert_eq.
Qed.

Lemma latest_snapshot_wins_witness :
  abilityState
    (aplCheck Fixtures.aplA
       ([EvUpdateSpellUsable (Fixtures.usable Fixtures.spellA false)]
        ++ EvUpdateSpellUsable (Fixtures.usable Fixtures.spellA true)
           :: [EvCast (Fixtures.castBy 1 Fixtures.spellA)])
       Fixtures.player)
    !! guid (usableAbility (Fixtures.usable Fixtures.spellA true))
  = Some (Fixtures.usable Fixtures.spellA true).
Proof.
  apply latest_snapshot_wins.
  intros u' Hin. apply list_elem_of_singleton in Hin. discriminate Hin.
Defined.

(** X4. Every snapshot in the tracker is an availability update of the
    processed stream, filed under the id of its own ability: no snapshot
    is made up, and none is filed under another spell. *)
Theorem snapshots_come_from_stream (apl : Apl) (events : list AnyEvent)
    (info : Info) (k : Z) (u : UpdateSpellUsableEvent) :
  abilityState (aplCheck apl events info) !! k = Some u →
  EvUpdateSpellUsable u ∈ events ∧ guid (usableAbility u) = k.
Proof.
  rewrite aplCheck_unfold, fold_abilityState.
  intros [H|H]%fold_updateAbilities_origin; [|exact H].
  simpl in H. by rewrite lookup_empty in H.
Qed.

Lemma snapshots_come_from_stream_witness :
  EvUpdateSpellUsable (Fixtures.usable Fixtures.spellA false)
    ∈ [EvUpdateSpellUsable (Fixtures.usable Fixtures.spellA false)]
  ∧ guid (usableAbility (Fixtures.usable Fixtures.spellA false)) = 101.
Proof.
  apply (snapshots_come_from_stream Fixtures.aplA _ Fixtures.player).
  reflexivity.
Defined.

(** ** Which events leave a record *)

Lemma judge_ungoverned apl result event :
  governedCast apl event = None → judge apl result event = result.
Proof.
  unfold governedCast, judge. destruct event as [c|a|a|u|a]; try done.
  by case_bool_decide.
Qed.

Lemma judge_governed apl event c :
  governedCast apl event = Some c →
  event = EvCast c ∧ guid (ability c) ∈ applicableSpells apl.
Proof.
  unfold governedCast. destruct event as [c'|a|a|u|a]; try done.
  case_bool_decide; [|done]. by intros [= ->].
Qed.

Lemma applicableRule_in_rules apl result c r :
  applicableRule apl result c = Some r →
  r ∈ rules apl ∧ ruleApplies r result c = true.
Proof.
  intros (before & after & -> & _ & Hr)%firstApplicable_Some.
  split; [|exact Hr]. apply elem_of_app. right. by left.
Qed.

Lemma fold_ungoverned apl events result :
  governedCasts apl events = [] →
  successes (fold_left (reducer apl) events result) = successes result
  ∧ violations (fold_left (reducer apl) events result) = violations result.
Proof.
  revert result. induction events as [|e events IH]; intros result H.
  - done.
  - unfold governedCasts in H. simpl in H.
    destruct (governedCast apl e) eqn:He; [discriminate|].
    simpl. destruct (IH (reducer apl result e) H) as [-> ->].
    unfold reducer. simpl. by rewrite judge_ungoverned.
Qed.

(** X5. Only casts of governed spells are judged.  A stream with no
    such cast gives an empty result, whatever else it holds (the empty
    stream included), and an APL without rules gives an empty result on
    every stream. *)
Theorem no_governed_cast_no_record (apl : Apl) (events : list AnyEvent)
    (info : Info) :
  (governedCasts apl events = [] →
     successes (aplCheck apl events info) = []
     ∧ violations (aplCheck apl events info) = [])
  ∧ (rules apl = [] →
     successes (aplCheck apl events info) = []
     ∧ violations (aplCheck apl events info) = []).
Proof.
  assert (Hnone : governedCasts apl events = [] →
                  successes (aplCheck apl events info) = []
                  ∧ violations (aplCheck apl events info) = []).
  { intros H. rewrite aplCheck_unfold.
    by destruct (fold_ungoverned apl events (initial apl) H) as [-> ->]. }
  split; [exact Hnone|].
  intros Hrules. apply Hnone. clear Hnone. unfold governedCasts.
  induction events as [|e events IH]; [done|]. simpl.
  replace (governedCast apl e) with (@None CastEvent); [exact IH|].
  unfold governedCast, applicableSpells. rewrite Hrules. simpl.
  by destruct e as [c|a|a|u|a].
Qed.

Lemma no_governed_cast_no_record_witness :
  let stream := [EvCast (Fixtures.castBy 1 Fixtures.spellB);
                 EvApplyBuff (Fixtures.buffOn 1 Fixtures.spellA);
                 EvUpdateSpellUsable (Fixtures.usable Fixtures.spellA true)] in
  successes (aplCheck Fixtures.aplA stream Fixtures.player) = []
  ∧ violations (aplCheck Fixtures.aplA stream Fixtures.player) = [].
Proof.
  intros stream.
  apply (proj1 (no_governed_cast_no_record Fixtures.aplA stream
                  Fixtures.player)).
  reflexivity.
Defined.

Lemma judge_lengths apl result event :
  (length (successes (judge apl result event))
   + length (violations (judge apl result event))
   ≤ length (successes result) + length (violations result)
     + length (governedCasts apl [event]))%nat.
Proof.
  unfold governedCasts. simpl.
  destruct (governedCast apl event) as [c|] eqn:He.
  - apply judge_governed in He as [-> Hgov]. unfold judge.
    rewrite bool_decide_true by done.
    destruct (applicableRule apl result c) as [r|]; [|simpl; lia].
    destruct (_ =? _); simpl; rewrite length_app; simpl; lia.
  - rewrite judge_ungoverned by done. simpl. lia.
Qed.

Lemma fold_lengths apl events result :
  (length (successes (fold_left (reducer apl) events result))
   + length (violations (fold_left (reducer apl) events result))
   ≤ length (successes result) + length (violations result)
     + length (governedCasts apl events))%nat.
Proof.
  revert result. induction events as [|e events IH]; intros result.
  - simpl. lia.
  - simpl. etrans; [apply IH|]. clear IH.
    pose proof (judge_lengths apl result e) as H.
    unfold governedCasts in *. simpl in *.
    destruct (governedCast apl e); unfold reducer; simpl in *; lia.
Qed.

(** X6. There are never more records than casts of governed spells in
    the stream: each such cast leaves at most one record, and no other
    event leaves any. *)
Theorem records_bounded_by_governed_casts (apl : Apl)
    (events : list AnyEvent) (info : Info) :
  (length (successes (aplCheck apl events info))
   + length (violations (aplCheck apl events info))
   ≤ length (governedCasts apl events))%nat
  ∧ (length (governedCasts apl events) ≤ length events)%nat.
Proof.
  split.
  - rewrite aplCheck_unfold.
    pose proof (fold_lengths apl events (initial apl)) as H.
    simpl in H. exact H.
  - unfold governedCasts. induction events as [|e events IH]; [simpl; lia|].
    change (omap (governedCast apl) (e :: events))
      with (match governedCast apl e with
            | Some c => c :: omap (governedCast apl) events
            | None => omap (governedCast apl) events
            end).
    destruct (governedCast apl e); cbn [length]; lia.
Qed.

(** X7. Every record is about a rule of the APL and a cast of the
    stream.  A success is a rule of [apl.rules] whose spell some cast of
    the stream has as its ability.  A violation names a rule of
    [apl.rules], expects that rule's spell, and its actual cast is the
    ability of a cast in the stream, governed by some rule and
    different from the expected spell. *)
Theorem records_are_well_formed (apl : Apl) (events : list AnyEvent)
    (info : Info) :
  Forall (λ r, r ∈ rules apl
               ∧ ∃ c, EvCast c ∈ events ∧ guid (ability c) = id (spell r))
         (successes (aplCheck apl events info))
  ∧ Forall (λ v, rule v ∈ rules apl
                 ∧ expectedCast v = spell (rule v)
                 ∧ guid (actualCast v) ≠ id (expectedCast v)
                 ∧ guid (actualCast v) ∈ applicableSpells apl
                 ∧ ∃ c, EvCast c ∈ events ∧ ability c = actualCast v)
           (violations (aplCheck apl events info)).
Proof.
  induction events as [|e pre [IHs IHv]] using rev_ind.
  - split; constructor.
  - assert (Hs : Forall (λ r, r ∈ rules apl
                   ∧ ∃ c, EvCast c ∈ pre ++ [e]
                          ∧ guid (ability c) = id (spell r))
                   (successes (aplCheck apl pre info))).
    { eapply Forall_impl; [exact IHs|]. intros r (Hr & c & Hc & Hid).
      split; [done|]. exists c. split; [|done]. apply elem_of_app. by left. }
    assert (Hv : Forall (λ v, rule v ∈ rules apl
                   ∧ expectedCast v = spell (rule v)
                   ∧ guid (actualCast v) ≠ id (expectedCast v)
                   ∧ guid (actualCast v) ∈ applicableSpells apl
                   ∧ ∃ c, EvCast c ∈ pre ++ [e] ∧ ability c = actualCast v)
                   (violations (aplCheck apl pre info))).
    { eapply Forall_impl; [exact IHv|].
      intros v (H1 & H2 & H3 & H4 & c & Hc & Hab).
      repeat (split; [done|]). exists c. split; [|done].
      apply elem_of_app. by left. }
    rewrite aplCheck_snoc. unfold reducer. simpl.
    destruct (governedCast apl e) as [c|] eqn:He.
    + apply judge_governed in He as [-> Hgov]. unfold judge.
      rewrite bool_decide_true by done.
      destruct (applicableRule apl (aplCheck apl pre info) c) as [r|] eqn:Hr;
        [|done].
      apply applicableRule_in_rules in Hr as [Hin _].
      assert (Hc : EvCast c ∈ pre ++ [EvCast c])
        by (apply elem_of_app; right; by left).
      destruct (Z.eqb_spec (id (spell r)) (guid (ability c))) as [Heq|Hne];
        simpl.
      * split; [|done]. apply Forall_app. split; [done|].
        constructor; [|constructor]. split; [done|]. by exists c.
      * split; [done|]. apply Forall_app. split; [done|].
        constructor; [|constructor]. simpl.
        split; [done|]. split; [done|]. split; [congruence|].
        split; [done|]. by exists c.
    + rewrite judge_ungoverned by done. done.
Qed.

(** X8. Processing more events never removes, changes or reorders the
    records already made: the lists after a prefix of the stream are
    prefixes of the lists after the whole stream. *)
Theorem records_are_append_only (apl : Apl) (pre post : list AnyEvent)
    (info : Info) :
  successes (aplCheck apl pre info)
    `prefix_of` successes (aplCheck apl (pre ++ post) info)
  ∧ violations (aplCheck apl pre info)
      `prefix_of` violations (aplCheck apl (pre ++ post) info).
Proof.
  rewrite aplCheck_app.
  destruct (fold_extends apl post (aplCheck apl pre info))
    as [[ss Hs] [vs Hv]].
  split; [by exists ss | by exists vs].
Qed.

(** X9. A cast of a governed spell goes unrecorded exactly when no rule
    of the APL qualifies at that moment.  So if some rule is
    unconditional and its spell has no snapshot or an available one,
    every cast of a governed spell leaves exactly one record. *)
Theorem governed_cast_unrecorded_iff (apl : Apl) (result : CheckState)
    (c : CastEvent) :
  guid (ability c) ∈ applicableSpells apl →
  ((successes (reducer apl result (EvCast c)) = successes result
    ∧ violations (reducer apl result (EvCast c)) = violations result)
   ↔ Forall (λ r, ruleApplies r result c = false) (rules apl))
  ∧ (∀ s, Unconditional s ∈ rules apl →
       (abilityState result !! id s = None
        ∨ ∃ u, abilityState result !! id s = Some u ∧ isAvailable u = true) →
       (length (successes (reducer apl result (EvCast c)))
        + length (violations (reducer apl result (EvCast c)))
        = S (length (successes result) + length (violations result)))%nat).
Proof.
  intros Hgov.
  assert (Hsome : ∀ r, applicableRule apl result c = Some r →
    (length (successes (reducer apl result (EvCast c)))
     + length (violations (reducer apl result (EvCast c)))
     = S (length (successes result) + length (violations result)))%nat).
  { intros r Hr. unfold reducer, judge.
    rewrite bool_decide_true, Hr by done.
    destruct (_ =? _); simpl; rewrite length_app; simpl; lia. }
  split.
  - rewrite <- firstApplicable_None. fold (applicableRule apl result c).
    destruct (applicableRule apl result c) as [r|] eqn:Hr.
    + specialize (Hsome r eq_refl). split; [|done].
      intros [Hs Hv]. rewrite Hs, Hv in Hsome. lia.
    + split; [done|]. intros _. unfold reducer, judge.
      by rewrite bool_decide_true, Hr.
  - intros s Hin Havail.
    destruct (applicableRule apl result c) as [r|] eqn:Hr; [by apply (Hsome r)|].
    apply firstApplicable_None in Hr.
    assert (Hs : ruleApplies (Unconditional s) result c = false)
      by apply (proj1 (Forall_forall _ _) Hr _ Hin).
    unfold ruleApplies in Hs. simpl in Hs.
    destruct Havail as [Hn|(u & Hu & Ha)]; [by rewrite Hn in Hs|].
    rewrite Hu, Ha in Hs. done.
Qed.

Lemma governed_cast_unrecorded_iff_witness :
  (length (successes (reducer Fixtures.aplAB (initial Fixtures.aplAB)
                        (EvCast (Fixtures.castBy 1 Fixtures.spellB))))
   + length (violations (reducer Fixtures.aplAB (initial Fixtures.aplAB)
                           (EvCast (Fixtures.castBy 1 Fixtures.spellB))))
   = S (length (successes (initial Fixtures.aplAB))
        + length (violations (initial Fixtures.aplAB))))%nat.
Proof.
  refine (proj2 (governed_cast_unrecorded_iff Fixtures.aplAB
                   (initial Fixtures.aplAB)
                   (Fixtures.castBy 1 Fixtures.spellB) _)
            Fixtures.spellA _ _).
  - refine (bool_decide_unpack _ _). vm_compute. exact I.
  - apply elem_of_cons. left. reflexivity.
  - left. reflexivity.
Defined.

(** X10. A cast of a spell whose latest snapshot says unavailable is
    never a success: a rule for that spell cannot be the one that
    qualifies. *)
Theorem unavailable_cast_is_no_success (apl : Apl) (result : CheckState)
    (c : CastEvent) (u : UpdateSpellUsableEvent) :
  abilityState result !! guid (ability c) = Some u →
  isAvailable u = false →
  successes (reducer apl result (EvCast c)) = successes result.
Proof.
  intros Hu Hfalse. unfold reducer, judge. simpl.
  case_bool_decide; [|done].
  destruct (applicableRule apl result c) as [r|] eqn:Hr; [|done].
  apply applicableRule_in_rules in Hr as [_ Hr].
  destruct (Z.eqb_spec (id (spell r)) (guid (ability c))) as [Heq|]; [|done].
  unfold ruleApplies in Hr. rewrite Heq, Hu, Hfalse in Hr. done.
Qed.

Lemma unavailable_cast_is_no_success_witness :
  successes
    (reducer Fixtures.aplAB
       (aplCheck Fixtures.aplAB
          [EvUpdateSpellUsable (Fixtures.usable Fixtures.spellB false)]
          Fixtures.player)
       (EvCast (Fixtures.castBy 1 Fixtures.spellB)))
  = [].
Proof.
  apply (unavailable_cast_is_no_success Fixtures.aplAB
           (aplCheck Fixtures.aplAB
              [EvUpdateSpellUsable (Fixtures.usable Fixtures.spellB false)]
              Fixtures.player)
           (Fixtures.castBy 1 Fixtures.spellB)
           (Fixtures.usable Fixtures.spellB false)); reflexivity.
Defined.

(** ** An APL whose first rule always qualifies *)

Lemma top_rule_fold apl s rest events result :
  rules apl = Unconditional s :: rest →
  (∀ u, abilityState result !! id s = Some u → isAvailable u = true) →
  (∀ u, EvUpdateSpellUsable u ∈ events → guid (usableAbility u) = id s →
        isAvailable u = true) →
  successes (fold_left (reducer apl) events result)
  = successes result
    ++ ((λ _, Unconditional s)
          <$> filter (λ c, guid (ability c) = id s) (governedCasts apl events))
  ∧ violations (fold_left (reducer apl) events result)
    = violations result
      ++ ((λ c, {| rule := Unconditional s; expectedCast := s;
                   actualCast := ability c |})
            <$> filter (λ c, guid (ability c) ≠ id s)
                       (governedCasts apl events)).
Proof.
  intros Hrules. revert result.
  induction events as [|e events IH]; intros result Hinv Hev.
  - simpl. by rewrite !app_nil_r.
  - simpl.
    assert (Hinv' : ∀ u, abilityState (reducer apl result e) !! id s = Some u →
                         isAvailable u = true).
    { intros u. rewrite reducer_abilityState.
      destruct e as [c|a|a|u'|a]; simpl; try apply Hinv.
      destruct (decide (guid (usableAbility u') = id s)) as [Heq|Hne].
      - rewrite <- Heq, lookup_insert_eq. intros [= <-].
        apply Hev; [by left|done].
      - rewrite lookup_insert_ne by done. apply Hinv. }
    destruct (IH (reducer apl result e) Hinv') as [-> ->].
    { intros u Hin. apply Hev. by right. }
    unfold governedCasts at 2 4. simpl. fold (governedCasts apl events).
    destruct (governedCast apl e) as [c|] eqn:He.
    + apply judge_governed in He as [-> Hgov].
      assert (Hr : applicableRule apl result c = Some (Unconditional s)).
      { unfold applicableRule. rewrite Hrules. simpl.
        unfold ruleApplies. simpl.
        destruct (abilityState result !! id s) as [u|] eqn:Hu; [|done].
        by rewrite (Hinv u eq_refl). }
      rewrite !filter_cons.
      unfold reducer, judge. rewrite bool_decide_true, Hr by done.
      destruct (Z.eqb_spec (id (spell (Unconditional s))) (guid (ability c)))
        as [Heq|Hne]; cbn [spell] in *;
        repeat case_decide; try congruence;
        simpl; by rewrite <- !app_assoc.
    + unfold reducer. simpl. by rewrite judge_ungoverned.
Qed.

(** X11. When the first rule is unconditional and no availability
    update ever marks its spell unavailable, it is the expected rule of
    every judged cast: the successes are one copy of that rule per cast
    of its spell, the violations one record per cast of any other
    governed spell, in stream order, and no rule below it is ever
    expected. *)
Theorem top_unconditional_rule_dominates (apl : Apl) (s : Spell)
    (rest : list Rule) (events : list AnyEvent) (info : Info) :
  rules apl = Unconditional s :: rest →
  (∀ u, EvUpdateSpellUsable u ∈ events → guid (usableAbility u) = id s →
        isAvailable u = true) →
  successes (aplCheck apl events info)
  = (λ _, Unconditional s)
      <$> filter (λ c, guid (ability c) = id s) (governedCasts apl events)
  ∧ violations (aplCheck apl events info)
    = (λ c, {| rule := Unconditional s; expectedCast := s;
               actualCast := ability c |})
        <$> filter (λ c, guid (ability c) ≠ id s) (governedCasts apl events).
Proof.
  intros Hrules Hev. rewrite aplCheck_unfold.
  apply (top_rule_fold apl s rest events (initial apl) Hrules); [|done].
  intros u. simpl. by rewrite lookup_empty.
Qed.

Lemma top_unconditional_rule_dominates_witness :
  let stream := [EvCast (Fixtures.castBy 1 Fixtures.spellB);
                 EvUpdateSpellUsable (Fixtures.usable Fixtures.spellB false);
                 EvCast (Fixtures.castBy 1 Fixtures.spellA)] in
  successes (aplCheck Fixtures.aplAB stream Fixtures.player)
  = [Unconditional Fixtures.spellA]
  ∧ violations (aplCheck Fixtures.aplAB stream Fixtures.player)
    = [{| rule := Unconditional Fixtures.spellA;
          expectedCast := Fixtures.spellA;
          actualCast := Fixtures.abilityOf Fixtures.spellB |}].
Proof.
  intros stream.
  refine (top_unconditional_rule_dominates Fixtures.aplAB Fixtures.spellA
            [Unconditional Fixtures.spellB] stream Fixtures.player eq_refl _).
  intros u Hin Hid. unfold stream in Hin.
  apply elem_of_cons in Hin as [Hin|Hin]; [discriminate Hin|].
  apply elem_of_cons in Hin as [Hin|Hin].
  - injection Hin as ->. vm_compute in Hid. discriminate Hid.
  - apply list_elem_of_singleton in Hin. discriminate Hin.
Defined.

(** ** Events that nothing reacts to *)

Lemma fold_insert_const (f : Condition → jsval) (g : string → jsval) cnds
    (m : ConditionState) (k : string) :
  (∀ cnd, cnd ∈ cnds → f cnd = g (key cnd)) →
  fold_left (λ (state : ConditionState) cnd, <[key cnd := f cnd]> state)
            cnds m !! k
  = if decide (k ∈ key <$> cnds) then Some (g k) else m !! k.
Proof.
  revert m. induction cnds as [|c cnds IH]; intros m Hf.
  - rewrite fmap_nil. case_decide as H; [by apply elem_of_nil in H|done].
  - rewrite fmap_cons. cbn [fold_left].
    rewrite IH by (intros cnd Hin; apply Hf; by right).
    destruct (decide (k ∈ key <$> cnds)) as [Hin|Hnin].
    + rewrite decide_True; [done|]. by right.
    + destruct (decide (k = key c)) as [->|Hne].
      * rewrite decide_True by by left.
        rewrite lookup_insert_eq, Hf; [done|by left].
      * rewrite decide_False, lookup_insert_ne; [done|done|].
        intros [?|?]%elem_of_cons; done.
Qed.

Lemma updateState_noop apl (state : ConditionState) event :
  dom state = conditionKeys apl →
  (∀ cnds cnd s, conditions apl = Some cnds → cnd ∈ cnds →
                 update cnd s event = s) →
  updateState apl state event = state.
Proof.
  unfold updateState, conditionKeys. intros Hdom Hignore.
  destruct (conditions apl) as [cnds|] eqn:Hc; simpl in Hdom.
  - apply map_eq. intros k.
    rewrite (fold_insert_const _ (prop state)) by (intros; by eapply Hignore).
    destruct (decide (k ∈ key <$> cnds)) as [Hin|Hnin].
    + assert (Hk : k ∈ dom state) by (rewrite Hdom; by apply elem_of_list_to_set).
      apply elem_of_dom in Hk as [v Hv]. unfold prop. by rewrite Hv.
    + rewrite lookup_empty. symmetry. apply not_elem_of_dom.
      rewrite Hdom. by rewrite elem_of_list_to_set.
  - symmetry. by apply dom_empty_inv_L.
Qed.

(** X12. An event that is neither a cast of a governed spell nor an
    availability update, and that every registered condition's
    [update] leaves the state alone on, has no effect at all: the
    result with it anywhere in the stream is the result without it. *)
Theorem inert_event_can_be_dropped (apl : Apl) (pre post : list AnyEvent)
    (event : AnyEvent) (info : Info) :
  governedCast apl event = None →
  (∀ u, event ≠ EvUpdateSpellUsable u) →
  (∀ cnds cnd s, conditions apl = Some cnds → cnd ∈ cnds →
                 update cnd s event = s) →
  aplCheck apl (pre ++ event :: post) info = aplCheck apl (pre ++ post) info.
Proof.
  intros Hgov Hupd Hignore.
  rewrite !aplCheck_app. simpl. f_equal.
  unfold reducer. rewrite judge_ungoverned by done.
  rewrite updateState_noop; [|apply conditionState_dom|done].
  replace (updateAbilities (abilityState (aplCheck apl pre info)) event)
    with (abilityState (aplCheck apl pre info)).
  - by destruct (aplCheck apl pre info).
  - destruct event as [c|a|a|u|a]; try done. by destruct (Hupd u).
Qed.

Lemma inert_event_can_be_dropped_witness :
  aplCheck Fixtures.aplGuarded
    ([EvApplyBuff (Fixtures.buffOn 1 Fixtures.spellB)]
     ++ EvDamage (Fixtures.buffOn 1 Fixtures.spellB)
        :: [EvCast (Fixtures.castBy 1 Fixtures.spellA)])
    Fixtures.player
  = aplCheck Fixtures.aplGuarded
      ([EvApplyBuff (Fixtures.buffOn 1 Fixtures.spellB)]
       ++ [EvCast (Fixtures.castBy 1 Fixtures.spellA)])
      Fixtures.player.
Proof.
  apply inert_event_can_be_dropped.
  - reflexivity.
  - intros u. discriminate.
  - intros cnds cnd s [= <-] Hin.
    apply list_elem_of_singleton in Hin. subst cnd. reflexivity.
Defined.

(** ** buffPresent inside the engine *)

Lemma buffPresent_quiet s target events start :
  (∀ e, EvApplyBuff e ∈ events ∨ EvRemoveBuff e ∈ events →
        guid (ability e) ≠ id s) →
  fold_left (update (buffPresent s target)) events start = start.
Proof.
  revert start. induction events as [|ev events IH]; intros start H; [done|].
  simpl fold_left. rewrite IH.
  - destruct ev as [c|a|a|u|a]; try reflexivity; simpl;
      (destruct (Z.eqb_spec (guid (ability a)) (id s)) as [Heq|];
       [|reflexivity]); exfalso; revert Heq; apply H; [left|right]; by left.
  - intros e [Hin|Hin]; apply H; [left|right]; by right.
Qed.

(** X13. In the engine, the state of a registered [buffPresent] says
    whether the last apply-buff or remove-buff event of its spell in the
    stream was an apply: after an apply followed by no further buff
    event of that spell it reads [true], after a remove it reads
    [false], and on a stream without any buff event of that spell it
    reads [false]. *)
Theorem buffPresent_follows_last_buff_event (apl : Apl)
    (before after : list Condition) (s : Spell) (target : Z)
    (pre post : list AnyEvent) (e : AbilityEvent) (info : Info) :
  conditions apl = Some (before ++ buffPresent s target :: after) →
  Forall (λ c', key c' ≠ key (buffPresent s target)) after →
  guid (ability e) = id s →
  (∀ e', EvApplyBuff e' ∈ post ∨ EvRemoveBuff e' ∈ post →
         guid (ability e') ≠ id s) →
  let state events :=
    prop (conditionState (aplCheck apl events info))
         (key (buffPresent s target)) in
  state (pre ++ EvApplyBuff e :: post) = JBool true
  ∧ state (pre ++ EvRemoveBuff e :: post) = JBool false
  ∧ state post = JBool false.
Proof.
  intros Hc Hafter He Hpost state.
  assert (Hstate : ∀ events,
    state events
    = fold_left (update (buffPresent s target)) events
                (init (buffPresent s target))).
  { intros events. unfold state, prop.
    by rewrite (conditionState_of_last apl before after _ events info Hc Hafter). }
  rewrite !Hstate, !fold_left_app. cbn [fold_left].
  rewrite !(buffPresent_quiet s target post) by exact Hpost.
  simpl. rewrite He, Z.eqb_refl. done.
Qed.

Lemma buffPresent_follows_last_buff_event_witness :
  prop (conditionState
          (aplCheck Fixtures.aplGuarded
             ([EvRemoveBuff (Fixtures.buffOn 1 Fixtures.spellB)]
              ++ EvApplyBuff (Fixtures.buffOn 2 Fixtures.spellB)
                 :: [EvApplyBuff (Fixtures.buffOn 1 Fixtures.spellA)])
             Fixtures.player))
       (key (buffPresent Fixtures.spellB 1))
  = JBool true.
Proof.
  refine (proj1 (buffPresent_follows_last_buff_event Fixtures.aplGuarded
                   [] [] Fixtures.spellB 1
                   [EvRemoveBuff (Fixtures.buffOn 1 Fixtures.spellB)]
                   [EvApplyBuff (Fixtures.buffOn 1 Fixtures.spellA)]
                   (Fixtures.buffOn 2 Fixtures.spellB) Fixtures.player
                   eq_refl (Forall_nil_2 _) eq_refl _)).
  intros e' [Hin|Hin]; apply list_elem_of_singleton in Hin.
  - injection Hin as ->. vm_compute. discriminate.
  - discriminate Hin.
Defined.

(** ** Keys of buffPresent conditions *)

Lemma pretty_N_char_noDash x : Ascii.eqb (pretty_N_char x) "-"%char = false.
Proof. unfold pretty_N_char. by repeat case_match. Qed.

Lemma string_app_cons (x : ascii) (a b : string) :
  String x a +:+ b = String x (a +:+ b).
Proof. reflexivity. Qed.

Lemma string_app_nil_r (a : string) : a +:+ "" = a.
Proof.
  induction a as [|x a IH]; [done|]. by rewrite string_app_cons, IH.
Qed.

Lemma string_app_assoc (a b c : string) : (a +:+ b) +:+ c = a +:+ (b +:+ c).
Proof.
  induction a as [|x a IH]; [done|]. by rewrite !string_app_cons, IH.
Qed.

Lemma noDash_app a b : noDash (a +:+ b) = noDash a && noDash b.
Proof.
  induction a as [|x a IH]; [done|].
  rewrite string_app_cons. cbn [noDash]. by rewrite IH, andb_assoc.
Qed.

Lemma pretty_N_go_shape (x : N) (s : string) :
  ∃ d, pretty_N_go x s = d +:+ s ∧ noDash d = true
       ∧ ((0 < x)%N → d ≠ "").
Proof.
  revert s. induction (N.lt_wf_0 x) as [x _ IH]; intros s.
  assert (x = 0 ∨ 0 < x)%N as [->|Hpos] by lia.
  - exists "". rewrite pretty_N_go_0. split; [done|]. split; [done|lia].
  - rewrite pretty_N_go_step by done.
    destruct (IH (x `div` 10)%N (N.div_lt x 10 Hpos eq_refl)
                 (String (pretty_N_char (x `mod` 10)) s))
      as (d & -> & Hd & _).
    exists (d +:+ String (pretty_N_char (x `mod` 10)) "").
    split; [by rewrite string_app_assoc|]. split.
    + rewrite noDash_app, Hd. simpl. by rewrite pretty_N_char_noDash.
    + intros _. by destruct d.
Qed.

Lemma pretty_N_shape (x : N) : noDash (pretty x) = true ∧ pretty x ≠ "".
Proof.
  unfold pretty, pretty_N. case_decide as Hx; [done|].
  destruct (pretty_N_go_shape x "") as (d & -> & Hd & Hne).
  rewrite string_app_nil_r.
  split; [done|]. apply Hne. lia.
Qed.

Lemma dash_split (d1 d2 r1 r2 : string) :
  noDash d1 = true → noDash d2 = true →
  d1 +:+ String "-"%char r1 = d2 +:+ String "-"%char r2 →
  d1 = d2 ∧ r1 = r2.
Proof.
  revert d2. induction d1 as [|a d1 IH]; intros [|b d2]; simpl.
  - by intros _ _ [= ->].
  - intros _ Hb [= <- _]. done.
  - intros Ha _ [= -> _]. done.
  - intros [_ H1]%andb_true_iff [_ H2]%andb_true_iff [= -> H].
    destruct (IH d2 H1 H2 H) as [-> ->]. done.
Qed.

Lemma pretty_Z_dash_split (a b : Z) (r1 r2 : string) :
  pretty a +:+ String "-"%char r1 = pretty b +:+ String "-"%char r2 →
  a = b ∧ r1 = r2.
Proof.
  assert (Hshape : ∀ z : Z,
    pretty z = (if decide (z < 0) then "-" else "") +:+ pretty (Z.abs_N z)
    ∧ noDash (pretty (Z.abs_N z)) = true ∧ pretty (Z.abs_N z) ≠ "").
  { intros z. split; [by destruct z|apply pretty_N_shape]. }
  intros H.
  destruct (Hshape a) as (Ha & Hda & Hna), (Hshape b) as (Hb & Hdb & Hnb).
  cut (pretty a = pretty b ∧ r1 = r2).
  { intros [Hp ->]. split; [|done]. by apply (inj pretty). }
  rewrite Ha, Hb in H. rewrite Ha, Hb.
  destruct (decide (a < 0)), (decide (b < 0)); simpl in *.
  - injection H as H. by destruct (dash_split _ _ _ _ Hda Hdb H) as [-> ->].
  - destruct (pretty (Z.abs_N b)) as [|c rest]; [done|].
    simpl in *. injection H as <- _. done.
  - destruct (pretty (Z.abs_N a)) as [|c rest]; [done|].
    simpl in *. injection H as -> _. done.
  - by destruct (dash_split _ _ _ _ Hda Hdb H) as [-> ->].
Qed.

(** X14. Two [buffPresent] conditions have the same key only when they
    are on the same spell id and the same target, and then they are the
    same condition in every respect: conditions built by [buffPresent]
    never overwrite one another's state with a different behaviour. *)
Theorem buffPresent_key_inj (s1 s2 : Spell) (t1 t2 : Z) :
  key (buffPresent s1 t1) = key (buffPresent s2 t2) →
  id s1 = id s2 ∧ t1 = t2
  ∧ init (buffPresent s1 t1) = init (buffPresent s2 t2)
  ∧ (∀ state event,
       update (buffPresent s1 t1) state event
       = update (buffPresent s2 t2) state event)
  ∧ (∀ state event,
       validate (buffPresent s1 t1) state event
       = validate (buffPresent s2 t2) state event).
Proof.
  unfold buffPresent at 1 2. cbn [key].
  intros H%(inj (String.app "buffPresent-")).
  apply pretty_Z_dash_split in H as [Hid Ht%(inj pretty)].
  split; [done|]. split; [done|]. split; [done|].
  split; [|done]. intros state event. simpl. by rewrite Hid.
Qed.

Lemma buffPresent_key_inj_witness :
  id {| id := -7; name := "left" |} = id {| id := -7; name := "right" |}
  ∧ (-3) = (-3).
Proof.
  destruct (buffPresent_key_inj {| id := -7; name := "left" |}
              {| id := -7; name := "right" |} (-3) (-3) eq_refl)
    as (Hid & Ht & _).
  split; [exact Hid | exact Ht].
Defined.

(** ** A rule guarded by buffPresent, end to end *)

Lemma available_unless_marked apl events info (k : Z) :
  (∀ u, EvUpdateSpellUsable u ∈ events → guid (usableAbility u) = k →
        isAvailable u = true) →
  match abilityState (aplCheck apl events info) !! k with
  | None => true
  | Some usable => isAvailable usable
  end = true.
Proof.
  intros Hev.
  destruct (abilityState (aplCheck apl events info) !! k) as [u|] eqn:Hu;
    [|done].
  rewrite aplCheck_unfold, fold_abilityState in Hu.
  apply fold_updateAbilities_origin in Hu as [Hu|[Hin Hk]].
  - simpl in Hu. by rewrite lookup_empty in Hu.
  - by apply Hev.
Qed.

(** X15. A first rule for spell [a] guarded by a registered
    [buffPresent b]: when the last buff event of [b] before a cast of
    [a] is an apply, and no availability update has marked [a]
    unavailable, the cast is recorded as a success of that rule; when
    the last buff event of [b] is a remove, the rule does not qualify
    for the cast. *)
Theorem buff_guarded_rule_end_to_end (apl : Apl) (a b : Spell) (t : Z)
    (rest : list Rule) (before after : list Condition)
    (pre post : list AnyEvent) (e : AbilityEvent) (c : CastEvent)
    (info : Info) :
  let guarded :=
    Conditional {| ruleSpell := a; condition := buffPresent b t |} in
  rules apl = guarded :: rest →
  conditions apl = Some (before ++ buffPresent b t :: after) →
  Forall (λ c', key c' ≠ key (buffPresent b t)) after →
  guid (ability e) = id b →
  (∀ e', EvApplyBuff e' ∈ post ∨ EvRemoveBuff e' ∈ post →
         guid (ability e') ≠ id b) →
  guid (ability c) = id a →
  ((∀ u, EvUpdateSpellUsable u ∈ pre ++ EvApplyBuff e :: post →
         guid (usableAbility u) = id a → isAvailable u = true) →
   successes (aplCheck apl ((pre ++ EvApplyBuff e :: post) ++ [EvCast c]) info)
   = successes (aplCheck apl (pre ++ EvApplyBuff e :: post) info) ++ [guarded]
   ∧ violations
       (aplCheck apl ((pre ++ EvApplyBuff e :: post) ++ [EvCast c]) info)
     = violations (aplCheck apl (pre ++ EvApplyBuff e :: post) info))
  ∧ ruleApplies guarded
      (aplCheck apl (pre ++ EvRemoveBuff e :: post) info) c = false.
Proof.
  intros guarded Hrules Hc Hafter He Hpost Hcast.
  assert (Hstate : ∀ events,
    prop (conditionState (aplCheck apl events info)) (key (buffPresent b t))
    = fold_left (update (buffPresent b t)) events (JBool false)).
  { intros events. unfold prop.
    by rewrite (conditionState_of_last apl before after _ events info Hc Hafter). }
  assert (Hon : prop (conditionState
                        (aplCheck apl (pre ++ EvApplyBuff e :: post) info))
                     (key (buffPresent b t)) = JBool true).
  { rewrite Hstate, fold_left_app. cbn [fold_left].
    rewrite (buffPresent_quiet b t post) by exact Hpost.
    simpl. by rewrite He, Z.eqb_refl. }
  assert (Hoff : prop (conditionState
                         (aplCheck apl (pre ++ EvRemoveBuff e :: post) info))
                      (key (buffPresent b t)) = JBool false).
  { rewrite Hstate, fold_left_app. cbn [fold_left].
    rewrite (buffPresent_quiet b t post) by exact Hpost.
    simpl. by rewrite He, Z.eqb_refl. }
  split.
  - intros Havail.
    pose proof (available_unless_marked apl _ info (id a) Havail) as Hok.
    assert (Hr : applicableRule apl
                   (aplCheck apl (pre ++ EvApplyBuff e :: post) info) c
                 = Some guarded).
    { unfold applicableRule. rewrite Hrules. cbn [firstApplicable].
      replace (ruleApplies guarded
                 (aplCheck apl (pre ++ EvApplyBuff e :: post) info) c)
        with true; [done|].
      unfold ruleApplies, guarded. cbn [spell ruleSpell condition].
      rewrite Hok, Hon. done. }
    rewrite aplCheck_snoc. unfold reducer, judge. rewrite Hr.
    rewrite bool_decide_true.
    + cbn [spell guarded ruleSpell]. rewrite Hcast, Z.eqb_refl. done.
    + unfold applicableSpells. rewrite Hrules, Hcast. simpl.
      apply elem_of_union_l, elem_of_singleton. done.
  - unfold ruleApplies, guarded. cbn [spell ruleSpell condition].
    rewrite Hoff. simpl. apply andb_false_r.
Qed.

Lemma buff_guarded_rule_end_to_end_witness :
  let stream := [] ++ EvApplyBuff (Fixtures.buffOn 1 Fixtures.spellB) :: [] in
  successes (aplCheck Shadowing.aplBuffThenB
               (stream ++ [EvCast (Fixtures.castBy 1 Fixtures.spellA)])
               Fixtures.player)
  = successes (aplCheck Shadowing.aplBuffThenB stream Fixtures.player)
    ++ [Conditional Fixtures.guardedA].
Proof.
  intros stream.
  refine (proj1 (proj1 (buff_guarded_rule_end_to_end Shadowing.aplBuffThenB
            Fixtures.spellA Fixtures.spellB 1 [Unconditional Fixtures.spellB]
            [] [] [] [] (Fixtures.buffOn 1 Fixtures.spellB)
            (Fixtures.castBy 1 Fixtures.spellA) Fixtures.player
            eq_refl eq_refl (Forall_nil_2 _) eq_refl _ eq_refl) _)).
  - intros e' [Hin|Hin]; by apply elem_of_nil in Hin.
  - intros u Hin. apply list_elem_of_singleton in Hin. discriminate Hin.
Defined.
